(** * ComPath curation: pairwise pathway similarity reports

    A shallow embedding of [src/compath_resources/curation.py]:
    [calculate_jaccard] and [make_similarity_matricies], together with the
    properties of the similarity engine stated in the specification.

    Modelling conventions.
    - A Python [set] of gene symbols is a [gset string].
    - A Python [dict] whose iteration order is observed ([database], the
      gene-set mappings, the returned [rv]) is an insertion-ordered
      association list with the assignment [d[k] = v] of Python; a dict that
      is only looked up (the name mappings) is a [gmap].
    - A finite Python [float] is the rational it denotes ([Qc], canonical
      rationals), and [<] is the order of the rationals.  The true division
      of two [int]s is modelled twice: [float_truediv] and
      [calculate_jaccard_binary64] give the binary64 float that the code
      returns; [truediv] and [calculate_jaccard] give the exact quotient of
      which that float is the rounding, and the engine is stated with it.
      The two raise on the same sets ([calculate_jaccard_binary64_round]).
    - A raised exception is the [Raise] result of an error monad; the
      directory creation and the [to_csv] calls are recorded, in program
      order, as a list of file-system events.  [make_similarity_matricies]
      is the run on an operating system that accepts every call;
      [make_similarity_matricies_os] is the run on any operating system,
      where these calls may raise an [OSError].  [logging] and the [tqdm]
      progress bar have no effect on results and are left out. *)

From Stdlib Require Import QArith Qcanon OrdersEx.
From stdpp Require Import numbers strings list sorting gmap.

Local Open Scope string_scope.

(** ** Exceptions and the error monad *)

Inductive exception : Type :=
  | ZeroDivisionError
  | KeyError (key : string)
  | OverflowError
  | OSError (cls : string).

(** The name of the Python class of an exception; an [OSError] carries the
    name of its subclass ([FileNotFoundError], [PermissionError], ...). *)
Definition exc_name (e : exception) : string :=
  match e with
  | ZeroDivisionError => "ZeroDivisionError"
  | KeyError _ => "KeyError"
  | OverflowError => "OverflowError"
  | OSError cls => cls
  end.

Inductive result (A : Type) : Type :=
  | Ok (a : A)
  | Raise (e : exception).
Arguments Ok {A} a.
Arguments Raise {A} e.

Global Instance result_ret : MRet result := λ A, Ok.

Global Instance result_bind : MBind result := λ A B k m,
  match m with
  | Ok a => k a
  | Raise e => Raise e
  end.

(** ** The overlap scorer *)

(** The exact quotient of Python's [n / m] on two non-negative [int]s, before
    the rounding to a float, or [ZeroDivisionError] when the divisor is
    zero. *)
Definition truediv (n m : nat) : result Qc :=
  if Nat.eqb m 0 then Raise ZeroDivisionError
  else Ok (Qc_of_Z (Z.of_nat n) / Qc_of_Z (Z.of_nat m))%Qc.

Definition calculate_jaccard (set_1 set_2 : gset string) : result Qc :=
  let intersection := size (set_1 ∩ set_2) in
  let smaller_set := Nat.min (size set_1) (size set_2) in
  truediv intersection smaller_set.

(** ** Binary64 rounding

    Python's [n / m] on two [int]s is the binary64 float nearest to the
    exact quotient, ties going to the even significand, and
    [OverflowError] when that float would be 2^1024 or more.  A finite
    float is written as the rational it denotes.  [truediv] and
    [calculate_jaccard] above give the exact quotient, before rounding;
    [float_truediv] and [calculate_jaccard_binary64] give the float. *)

(** The integer nearest to [a / b], for [0 < b], ties to even. *)
Definition round_half_even (a b : Z) : Z :=
  let q := (a / b)%Z in
  let r := (a mod b)%Z in
  match (2 * r ?= b)%Z with
  | Lt => q
  | Gt => (q + 1)%Z
  | Eq => if Z.even q then q else (q + 1)%Z
  end.

(** The exponent [e] with [2^e <= a / b < 2^(e+1)], for [0 < a] and [0 < b]. *)
Definition floor_log2 (a b : Z) : Z :=
  let e := (Z.log2 a - Z.log2 b)%Z in
  if (if (0 <=? e)%Z then (b * 2 ^ e <=? a)%Z else (b <=? a * 2 ^ (- e))%Z)
  then e else (e - 1)%Z.

(** The exponent of the unit in the last place of the binary64 floats of
    the binade of [a / b]: 53 significant bits, and never below the
    exponent -1074 of the subnormal floats. *)
Definition ulp_exponent (a b : Z) : Z := Z.max (floor_log2 a b - 52) (-1074).

(** The significand of the float nearest to [a / b], in units in the last
    place. *)
Definition significand (a b : Z) : Z :=
  let p := ulp_exponent a b in
  if (0 <=? p)%Z then round_half_even a (b * 2 ^ p) else round_half_even (a * 2 ^ (- p)) b.

(** [r * 2^p] as a rational. *)
Definition scale2 (r p : Z) : Q :=
  if (0 <=? p)%Z then inject_Z (r * 2 ^ p) else Qmake r (Z.to_pos (2 ^ (- p))).

Definition round_binary64_Q (x : Q) : Q :=
  match Qnum x with
  | Z0 => 0%Q
  | Zpos a =>
      scale2 (significand (Zpos a) (Zpos (Qden x))) (ulp_exponent (Zpos a) (Zpos (Qden x)))
  | Zneg a =>
      Qopp (scale2 (significand (Zpos a) (Zpos (Qden x)))
                   (ulp_exponent (Zpos a) (Zpos (Qden x))))
  end.

Definition round_binary64 (x : Qc) : Qc := Q2Qc (round_binary64_Q (this x)).

Definition float_truediv (n m : nat) : result Qc :=
  if Nat.eqb m 0 then Raise ZeroDivisionError
  else
    let f := round_binary64 (Qc_of_Z (Z.of_nat n) / Qc_of_Z (Z.of_nat m))%Qc in
    if bool_decide (Qc_of_Z (2 ^ 1024) ≤ f)%Qc then Raise OverflowError else Ok f.

(** The score as the code returns it. *)
Definition calculate_jaccard_binary64 (set_1 set_2 : gset string) : result Qc :=
  let intersection := size (set_1 ∩ set_2) in
  let smaller_set := Nat.min (size set_1) (size set_2) in
  float_truediv intersection smaller_set.

(** ** Insertion-ordered dictionaries

    The items of a Python [dict], in insertion order.  [dict_set d k v] is the
    assignment [d[k] = v]: an existing key keeps its position and gets the new
    value, a new key is appended. *)

Abbreviation dict K V := (list (K * V)).

Fixpoint dict_set {K V} `{EqDecision K} (d : dict K V) (k : K) (v : V) : dict K V :=
  match d with
  | [] => [(k, v)]
  | (k', v') :: d' =>
      if decide (k' = k) then (k, v) :: d' else (k', v') :: dict_set d' k v
  end.

Fixpoint dict_get {K V} `{EqDecision K} (d : dict K V) (k : K) : option V :=
  match d with
  | [] => None
  | (k', v') :: d' => if decide (k' = k) then Some v' else dict_get d' k
  end.

Definition keys {K V} (d : dict K V) : list K := fst <$> d.

(** Subscription [m[k]] of a dict that is only looked up. *)
Definition getitem {V} (m : gmap string V) (k : string) : result V :=
  match m !! k with
  | Some v => Ok v
  | None => Raise (KeyError k)
  end.

(** [itertools.combinations(l, r=2)] and [itertools.product(a, b)]. *)
Fixpoint combinations {A} (l : list A) : list (A * A) :=
  match l with
  | [] => []
  | x :: l' => (pair x <$> l') ++ combinations l'
  end.

Definition product {A B} (a : list A) (b : list B) : list (A * B) :=
  a ≫= λ x, pair x <$> b.

(** ** Sources, rows and reports *)

Abbreviation gene_sets := (dict string (gset string)).
Abbreviation name_mapping := (gmap string string).

(** What a ComPath manager answers: whether it is populated, its pathway
    identifier to gene symbols dict and its pathway identifier to name dict. *)
Record Manager : Type := {
  is_populated : bool;
  get_pathway_id_to_symbols : gene_sets;
  get_pathway_id_name_mapping : name_mapping
}.

Record Row : Type := {
  row_a_id : string;
  row_a_name : string;
  row_b_id : string;
  row_b_name : string;
  gene_set_similarity : Qc;
  string_similarity : Qc
}.

Record DataFrame : Type := {
  columns : list string;
  rows : list Row
}.

Inductive event : Type :=
  | MakeDirs (directory : string)
  | ToCsv (path : string) (df : DataFrame).

(** [os.path.join(a, b)] of [posixpath]; the separator [/] is the character
    of code 47. *)
Fixpoint endswith_sep (s : string) : bool :=
  match s with
  | EmptyString => false
  | String c EmptyString => Ascii.eqb c (Ascii.ascii_of_nat 47)
  | String _ s' => endswith_sep s'
  end.

Definition path_join (a b : string) : string :=
  if String.prefix "/" b then b
  else if String.eqb a EmptyString || endswith_sep a then a ++ b
  else a ++ "/" ++ b.

(** ** Sorting a report

    [sort_values([a_id, 'gene_set_similarity'], ascending=False)]: the rows in
    descending lexicographic order of the two keys, rows with equal keys in
    their original order.  The six column labels are pairwise different
    ([_id] and [_name] suffixes, and two different source names), so the two
    labels select the first and the fifth field of a row. *)

Definition row_geb (r1 r2 : Row) : bool :=
  match String_as_OT.compare (row_a_id r1) (row_a_id r2) with
  | Gt => true
  | Lt => false
  | Eq => bool_decide (gene_set_similarity r2 ≤ gene_set_similarity r1)%Qc
  end.

Fixpoint insert_desc (r : Row) (l : list Row) : list Row :=
  match l with
  | [] => [r]
  | x :: l' => if row_geb r x then r :: x :: l' else x :: insert_desc r l'
  end.

Definition sort_values_desc (l : list Row) : list Row := foldr insert_desc [] l.

(** ** The similarity engine *)

Section engine.

(** [SequenceMatcher(None, a, b).ratio()] of [difflib]. *)
Variable ratio : string -> string -> Qc.

Variable directory : string.
Variables minimum_gene_set_similarity minimum_string_similarity : Qc.

Section pair.

Variables a_name b_name : string.
Variables a_mappings b_mappings : name_mapping.

(** The body of the inner loop for one element of the cross product:
    [None] when the element is skipped by a [continue], the appended row
    otherwise. *)
Definition pathway_pair_row (x : (string * gset string) * (string * gset string))
  : result (option Row) :=
  let '((a_pathway_id, a_set), (b_pathway_id, b_set)) := x in
  gene_similarity ← calculate_jaccard a_set b_set;
  if bool_decide (gene_similarity < minimum_gene_set_similarity)%Qc then Ok None
  else
    let string_similarity := ratio a_name b_name in
    if bool_decide (string_similarity < minimum_string_similarity)%Qc then Ok None
    else
      a_pathway_name ← getitem a_mappings a_pathway_id;
      b_pathway_name ← getitem b_mappings b_pathway_id;
      Ok (Some {| row_a_id := a_pathway_id; row_a_name := a_pathway_name;
                  row_b_id := b_pathway_id; row_b_name := b_pathway_name;
                  gene_set_similarity := gene_similarity;
                  string_similarity := string_similarity |}).

Fixpoint rows_loop (it : list ((string * gset string) * (string * gset string)))
    (rows : list Row) : result (list Row) :=
  match it with
  | [] => Ok rows
  | x :: it' =>
      r ← pathway_pair_row x;
      match r with
      | None => rows_loop it' rows
      | Some row => rows_loop it' (rows ++ [row])
      end
  end.

Definition report_columns : list string :=
  [a_name ++ "_id"; a_name ++ "_name"; b_name ++ "_id"; b_name ++ "_name";
   "gene_set_similarity"; "string_similarity"].

End pair.

(** Lines 43 to 69: the sorted report of one pair of sources. *)
Definition similarity_frame (mappings : gmap string name_mapping)
    (a_name : string) (a_sets : gene_sets) (b_name : string) (b_sets : gene_sets)
  : result DataFrame :=
  a_mappings ← getitem mappings a_name;
  b_mappings ← getitem mappings b_name;
  rows ← rows_loop a_name b_name a_mappings b_mappings (product a_sets b_sets) [];
  Ok {| columns := report_columns a_name b_name;
        rows := sort_values_desc rows |}.

Definition report_path (a_name b_name : string) : string :=
  path_join directory (a_name ++ "_" ++ b_name ++ ".tsv").

(** The loop over the pairs of sources.  A report is stored in [rv] and
    written as soon as it is complete; an exception ends the run with the
    events emitted so far. *)
Fixpoint pairs_loop (mappings : gmap string name_mapping)
    (pairs : list ((string * gene_sets) * (string * gene_sets)))
    (rv : dict (string * string) DataFrame)
  : list event * result (dict (string * string) DataFrame) :=
  match pairs with
  | [] => ([], Ok rv)
  | ((a_name, a_sets), (b_name, b_sets)) :: pairs' =>
      match similarity_frame mappings a_name a_sets b_name b_sets with
      | Raise e => ([], Raise e)
      | Ok df =>
          let rest := pairs_loop mappings pairs' (dict_set rv (a_name, b_name) df) in
          (ToCsv (report_path a_name b_name) df :: rest.1, rest.2)
      end
  end.

(** Lines 29 to 39: the populated sources, in the order of the managers. *)
Fixpoint load (managers : list (string * Manager))
    (database : dict string gene_sets) (mappings : gmap string name_mapping)
  : dict string gene_sets * gmap string name_mapping :=
  match managers with
  | [] => (database, mappings)
  | (name, manager) :: managers' =>
      if is_populated manager
      then load managers'
             (dict_set database name (get_pathway_id_to_symbols manager))
             (<[name := get_pathway_id_name_mapping manager]> mappings)
      else load managers' database mappings
  end.

(** [managers] stands for the items of [get_compath_manager_classes()]. *)
Definition make_similarity_matricies (managers : list (string * Manager))
  : list event * result (dict (string * string) DataFrame) :=
  let loaded := load managers [] ∅ in
  let run := pairs_loop loaded.2 (combinations loaded.1) [] in
  (MakeDirs directory :: run.1, run.2).

End engine.

(** The [database] and [mappings] dicts once every manager has been asked. *)
Definition database_of (managers : list (string * Manager)) : dict string gene_sets :=
  (load managers [] ∅).1.

Definition mappings_of (managers : list (string * Manager)) : gmap string name_mapping :=
  (load managers [] ∅).2.

(** The sources that answered that they are populated. *)
Definition populated (managers : list (string * Manager)) : list (string * Manager) :=
  filter (λ nm, is_populated nm.2 = true) managers.

(** A pair of sources as [itertools.combinations] yields it: its key in [rv],
    its report and the event of writing that report. *)
Abbreviation source_pair := ((string * gene_sets) * (string * gene_sets))%type.

Definition pair_key (p : source_pair) : string * string := (p.1.1, p.2.1).

Definition pair_frame (ratio : string -> string -> Qc)
    (minimum_gene_set_similarity minimum_string_similarity : Qc)
    (mappings : gmap string name_mapping) (p : source_pair) : result DataFrame :=
  similarity_frame ratio minimum_gene_set_similarity minimum_string_similarity
    mappings p.1.1 p.1.2 p.2.1 p.2.2.

Definition pair_event (directory : string) (p : source_pair) (df : DataFrame) : event :=
  ToCsv (report_path directory p.1.1 p.2.1) df.

(** ** The operating system

    [make_similarity_matricies] above is the run on an operating system that
    lets the output directory be created and every report be written.
    [make_similarity_matricies_os] is the run on any operating system:
    [os.makedirs] and [to_csv] may raise an [OSError], of the subclass the
    system gives, and the answer to a [to_csv] may depend on the calls that
    succeeded before it.  The empty path is refused by every system:
    [os.makedirs('')] raises [FileNotFoundError]. *)
Record OS : Type := {
  makedirs_error : string -> option string;
  to_csv_error : list event -> string -> DataFrame -> option string
}.

(** Line 27: [os.makedirs(directory, exist_ok=True)]. *)
Definition os_makedirs (os : OS) (directory : string) : result unit :=
  if String.eqb directory EmptyString then Raise (OSError "FileNotFoundError")
  else
    match makedirs_error os directory with
    | Some cls => Raise (OSError cls)
    | None => Ok tt
    end.

(** Lines 42 to 72 on an operating system; [history] holds the calls that
    succeeded so far. *)
Fixpoint pairs_loop_os (ratio : string -> string -> Qc) (directory : string)
    (minimum_gene_set_similarity minimum_string_similarity : Qc) (os : OS)
    (mappings : gmap string name_mapping) (pairs : list source_pair)
    (rv : dict (string * string) DataFrame) (history : list event)
  : list event * result (dict (string * string) DataFrame) :=
  match pairs with
  | [] => ([], Ok rv)
  | ((a_name, a_sets), (b_name, b_sets)) :: pairs' =>
      match similarity_frame ratio minimum_gene_set_similarity
              minimum_string_similarity mappings a_name a_sets b_name b_sets with
      | Raise e => ([], Raise e)
      | Ok df =>
          let path := report_path directory a_name b_name in
          match to_csv_error os history path df with
          | Some cls => ([], Raise (OSError cls))
          | None =>
              let rest :=
                pairs_loop_os ratio directory minimum_gene_set_similarity
                  minimum_string_similarity os mappings pairs'
                  (dict_set rv (a_name, b_name) df) (history ++ [ToCsv path df]) in
              (ToCsv path df :: rest.1, rest.2)
          end
      end
  end.

Definition make_similarity_matricies_os (ratio : string -> string -> Qc)
    (directory : string)
    (minimum_gene_set_similarity minimum_string_similarity : Qc) (os : OS)
    (managers : list (string * Manager))
  : list event * result (dict (string * string) DataFrame) :=
  match os_makedirs os directory with
  | Raise e => ([], Raise e)
  | Ok _ =>
      let loaded := load managers [] ∅ in
      let run :=
        pairs_loop_os ratio directory minimum_gene_set_similarity
          minimum_string_similarity os loaded.2 (combinations loaded.1) []
          [MakeDirs directory] in
      (MakeDirs directory :: run.1, run.2)
  end.

(** An operating system that refuses nothing but the empty path. *)
Definition willing_os : OS :=
  {| makedirs_error := λ _, None; to_csv_error := λ _ _ _, None |}.

(** The order of the sorted report: [r1] may stand before [r2]. *)
Definition row_ge (r1 r2 : Row) : Prop :=
  String_as_OT.lt (row_a_id r2) (row_a_id r1) ∨
  (row_a_id r1 = row_a_id r2 ∧ (gene_set_similarity r2 ≤ gene_set_similarity r1)%Qc).

(** ** Example data

    Two populated sources, an unpopulated one and a populated one with an
    empty gene set.  [example_ratio] stands for the string scorer in the
    examples; the theorems hold for every scorer. *)

Definition example_ratio (a b : string) : Qc :=
  if String.eqb a b then Q2Qc 1 else Q2Qc (1 # 4).

Definition source_X : Manager := {|
  is_populated := true;
  get_pathway_id_to_symbols :=
    [("p1", {[ "A"; "B"; "C" ]}); ("p2", {[ "D"; "E" ]})];
  get_pathway_id_name_mapping := {[ "p1" := "Alpha"; "p2" := "Beta" ]}
|}.

Definition source_Y : Manager := {|
  is_populated := true;
  get_pathway_id_to_symbols :=
    [("q1", {[ "A"; "B" ]}); ("q2", {[ "A"; "D"; "E"; "F" ]}); ("q3", {[ "G" ]})];
  get_pathway_id_name_mapping := {[ "q1" := "Gamma"; "q2" := "Delta" ]}
|}.

Definition source_Z : Manager := {|
  is_populated := false;
  get_pathway_id_to_symbols := [];
  get_pathway_id_name_mapping := ∅
|}.

Definition source_W : Manager := {|
  is_populated := true;
  get_pathway_id_to_symbols := [("w1", ∅)];
  get_pathway_id_name_mapping := {[ "w1" := "Omega" ]}
|}.

Definition source_V : Manager := {|
  is_populated := true;
  get_pathway_id_to_symbols := [("v1", {[ "A"; "H" ]})];
  get_pathway_id_name_mapping := {[ "v1" := "Sigma" ]}
|}.

Definition three_managers : list (string * Manager) :=
  [("X", source_X); ("Z", source_Z); ("Y", source_Y); ("V", source_V)].

Definition example_managers : list (string * Manager) :=
  [("X", source_X); ("Z", source_Z); ("Y", source_Y)].

Definition failing_managers : list (string * Manager) :=
  [("X", source_X); ("Y", source_Y); ("W", source_W)].

Definition pair_X_Y : source_pair :=
  (("X", get_pathway_id_to_symbols source_X), ("Y", get_pathway_id_to_symbols source_Y)).

Definition pair_X_W : source_pair :=
  (("X", get_pathway_id_to_symbols source_X), ("W", get_pathway_id_to_symbols source_W)).

Definition pair_Y_W : source_pair :=
  (("Y", get_pathway_id_to_symbols source_Y), ("W", get_pathway_id_to_symbols source_W)).

Definition example_run (minimum_gene_set_similarity : Qc)
  : list event * result (dict (string * string) DataFrame) :=
  make_similarity_matricies example_ratio "out" minimum_gene_set_similarity (Q2Qc 0)
    example_managers.

Definition returned {A} (r : result (list A)) : list A :=
  match r with
  | Ok l => l
  | Raise _ => []
  end.

Definition example_report (minimum_gene_set_similarity : Qc) : DataFrame :=
  default {| columns := []; rows := [] |}
    (dict_get (returned (example_run minimum_gene_set_similarity).2) ("X", "Y")).

(** Two sources whose pathways all have a name, compared without any
    filtering, and the example sources compared with a gene set threshold
    that no score reaches. *)
Definition named_managers : list (string * Manager) :=
  [("X", source_X); ("V", source_V)].

Definition named_run : list event * result (dict (string * string) DataFrame) :=
  make_similarity_matricies example_ratio "out" (Q2Qc 0) (Q2Qc 0) named_managers.

Definition named_report : DataFrame :=
  default {| columns := []; rows := [] |} (dict_get (returned named_run.2) ("X", "V")).

(** The last character of a string, to tell labels with different endings
    apart. *)
Fixpoint string_last (s : string) : option Ascii.ascii :=
  match s with
  | EmptyString => None
  | String c EmptyString => Some c
  | String _ s' => string_last s'
  end.

(** Whether a character occurs in a string. *)
Fixpoint occurs (c : Ascii.ascii) (s : string) : bool :=
  match s with
  | EmptyString => false
  | String c' s' => Ascii.eqb c c' || occurs c s'
  end.

(** The paths of the [to_csv] events, in the order of the events. *)
Definition written_paths (evs : list event) : list string :=
  omap (λ e, match e with ToCsv path _ => Some path | MakeDirs _ => None end) evs.


Local Open Scope list_scope.

(** Case analysis on the membership of a concrete list. *)
Ltac split_elem H :=
  repeat (apply elem_of_cons in H as [H|H]); [..|by apply elem_of_nil in H].

(** * The error monad *)

Lemma bind_Ok {A B} (m : result A) (k : A -> result B) (b : B) :
  m ≫= k = Ok b <-> exists a, m = Ok a /\ k a = Ok b.
Proof.
  destruct m as [a|e]; simpl; split.
  - intros H. exists a. auto.
  - intros (a' & Ha & Hk). congruence.
  - discriminate.
  - intros (a' & Ha & _). discriminate.
Qed.


(** * The overlap scorer *)

Lemma size_pos_nonempty (s : gset string) : s ≠ ∅ -> size s ≠ 0.
Proof. intros Hs Hz. apply Hs. by apply size_empty_inv in Hz; apply leibniz_equiv. Qed.

Lemma min_size_nonzero (s1 s2 : gset string) :
  s1 ≠ ∅ -> s2 ≠ ∅ -> Nat.min (size s1) (size s2) ≠ 0.
Proof.
  intros H1%size_pos_nonempty H2%size_pos_nonempty. lia.
Qed.

Lemma Qc_of_nat_nonzero (n : nat) : n ≠ 0 -> Qc_of_Z (Z.of_nat n) ≠ Q2Qc 0.
Proof.
  intros Hn Heq. apply (f_equal this) in Heq. simpl in Heq.
  injection Heq as Heq. lia.
Qed.

Lemma truediv_nonzero (n m : nat) :
  m ≠ 0 -> truediv n m = Ok (Qc_of_Z (Z.of_nat n) / Qc_of_Z (Z.of_nat m))%Qc.
Proof.
  intros Hm. unfold truediv. destruct (Nat.eqb_spec m 0); [done|reflexivity].
Qed.

Lemma truediv_zero (n : nat) : truediv n 0 = Raise ZeroDivisionError.
Proof. reflexivity. Qed.

Lemma calculate_jaccard_nonempty (s1 s2 : gset string) :
  s1 ≠ ∅ -> s2 ≠ ∅ ->
  calculate_jaccard s1 s2
  = Ok (Qc_of_Z (Z.of_nat (size (s1 ∩ s2)))
        / Qc_of_Z (Z.of_nat (Nat.min (size s1) (size s2))))%Qc.
Proof.
  intros H1 H2. unfold calculate_jaccard.
  apply truediv_nonzero. by apply min_size_nonzero.
Qed.


(** The exact quotient: on two non-empty sets, [calculate_jaccard] gives the
    size of the intersection divided by the smaller of the two sizes, the
    rational that the division of the code then rounds to a float. *)
Lemma calculate_jaccard_overlap (set_1 set_2 : gset string) :
  set_1 ≠ ∅ -> set_2 ≠ ∅ ->
  exists q : Qc,
    calculate_jaccard set_1 set_2 = Ok q /\
    q = (Qc_of_Z (Z.of_nat (size (set_1 ∩ set_2)))
         / Qc_of_Z (Z.of_nat (Nat.min (size set_1) (size set_2))))%Qc /\
    (Qc_of_Z (Z.of_nat (Nat.min (size set_1) (size set_2))) * q)%Qc
      = Qc_of_Z (Z.of_nat (size (set_1 ∩ set_2))).
Proof.
  intros H1 H2. eexists. split; [|split].
  - by apply calculate_jaccard_nonempty.
  - reflexivity.
  - apply Qcmult_div_r, Qc_of_nat_nonzero. by apply min_size_nonzero.
Qed.

(** C5 as stated fails: on an empty first argument the scorer raises, but the
    exception is not one named [InvalidInput]. *)
Lemma calculate_jaccard_empty_not_InvalidInput :
  ~ (exists e, calculate_jaccard ∅ {[ "TP53" ]} = Raise e /\ exc_name e = "InvalidInput").
Proof.
  intros (e & He & Hname). vm_compute in He.
  injection He as <-. discriminate Hname.
Qed.

(** C5, amended: with an empty set as either argument, whatever the other
    one holds, [calculate_jaccard] raises [ZeroDivisionError], the failure of
    the division itself; it returns no number. *)
Theorem calculate_jaccard_empty (s : gset string) :
  calculate_jaccard ∅ s = Raise ZeroDivisionError /\
  calculate_jaccard s ∅ = Raise ZeroDivisionError.
Proof.
  unfold calculate_jaccard. rewrite size_empty. split.
  - reflexivity.
  - by rewrite Nat.min_0_r.
Qed.

(** C7: on non-empty sets the score does not depend on the order of the
    arguments, and the score of a set against itself is one. *)
Theorem calculate_jaccard_symmetric_reflexive (s1 s2 : gset string) :
  s1 ≠ ∅ -> s2 ≠ ∅ ->
  (exists q, calculate_jaccard s1 s2 = Ok q /\ calculate_jaccard s2 s1 = Ok q) /\
  calculate_jaccard s1 s1 = Ok (Q2Qc 1).
Proof.
  intros H1 H2. split.
  - eexists. split; [by apply calculate_jaccard_nonempty|].
    rewrite (calculate_jaccard_nonempty s2 s1) by done.
    by rewrite (comm_L (∩) s2 s1), (Nat.min_comm (size s2)).
  - unfold calculate_jaccard.
    rewrite (idemp_L (∩) s1).
    rewrite Nat.min_id, truediv_nonzero; [|by apply size_pos_nonempty].
    f_equal. apply Qcmult_inv_r, Qc_of_nat_nonzero. by apply size_pos_nonempty.
Qed.

Lemma calculate_jaccard_symmetric_reflexive_witness :
  (exists q, calculate_jaccard {[ "A"; "B"; "C" ]} {[ "B"; "D" ]} = Ok q /\
             calculate_jaccard {[ "B"; "D" ]} {[ "A"; "B"; "C" ]} = Ok q) /\
  calculate_jaccard {[ "A"; "B"; "C" ]} {[ "A"; "B"; "C" ]} = Ok (Q2Qc 1).
Proof.
  apply (calculate_jaccard_symmetric_reflexive {[ "A"; "B"; "C" ]} {[ "B"; "D" ]}).
  - vm_compute. discriminate.
  - vm_compute. discriminate.
Defined.

(** * Sorting *)

Lemma row_geb_true (r1 r2 : Row) : row_geb r1 r2 = true <-> row_ge r1 r2.
Proof.
  unfold row_geb, row_ge.
  destruct (String_as_OT.compare_spec (row_a_id r1) (row_a_id r2)) as [Heq|Hlt|Hgt].
  - rewrite bool_decide_eq_true. split; [by right|].
    intros [Hlt|[_ Hle]]; [|done].
    rewrite Heq in Hlt. by apply (irreflexivity String_as_OT.lt) in Hlt.
  - split; [done|]. intros [Hgt|[Heq _]].
    + destruct (irreflexivity String_as_OT.lt (row_a_id r1)). by etrans.
    + rewrite Heq in Hlt. by apply (irreflexivity String_as_OT.lt) in Hlt.
  - split; [by left|done].
Qed.

Lemma row_geb_false (r1 r2 : Row) : row_geb r1 r2 = false -> row_ge r2 r1.
Proof.
  unfold row_geb, row_ge.
  destruct (String_as_OT.compare_spec (row_a_id r1) (row_a_id r2)) as [Heq|Hlt|Hgt].
  - rewrite bool_decide_eq_false. intros Hle. right. split; [done|].
    apply Qclt_le_weak. by apply Qcnot_le_lt.
  - intros _. by left.
  - discriminate.
Qed.

Global Instance row_ge_trans : Transitive row_ge.
Proof.
  intros r1 r2 r3 [H12|[E12 L12]] [H23|[E23 L23]]; unfold row_ge.
  - left. by etrans.
  - left. by rewrite <- E23.
  - left. by rewrite E12.
  - right. split; [congruence|]. by eapply Qcle_trans.
Qed.

Lemma insert_desc_Permutation (r : Row) (l : list Row) :
  Permutation (insert_desc r l) (r :: l).
Proof.
  induction l as [|x l IH]; simpl; [done|].
  destruct (row_geb r x); [done|].
  rewrite IH. apply perm_swap.
Qed.

Lemma insert_desc_HdRel (x r : Row) (l : list Row) :
  row_ge x r -> HdRel row_ge x l -> HdRel row_ge x (insert_desc r l).
Proof.
  intros Hxr Hx. destruct l as [|y l]; simpl; [by constructor|].
  destruct (row_geb r y); constructor; [done|].
  by apply HdRel_inv in Hx.
Qed.

Lemma insert_desc_Sorted (r : Row) (l : list Row) :
  Sorted row_ge l -> Sorted row_ge (insert_desc r l).
Proof.
  induction 1 as [|x l Hl IH Hx]; simpl; [by repeat constructor|].
  destruct (row_geb r x) eqn:Hrx.
  - constructor; [by constructor|]. constructor. by apply row_geb_true.
  - constructor; [done|]. apply insert_desc_HdRel; [|done]. by apply row_geb_false.
Qed.

Lemma sort_values_desc_Permutation (l : list Row) :
  Permutation (sort_values_desc l) l.
Proof.
  induction l as [|x l IH]; simpl; [done|].
  by rewrite insert_desc_Permutation, IH.
Qed.

Lemma sort_values_desc_StronglySorted (l : list Row) :
  StronglySorted row_ge (sort_values_desc l).
Proof.
  apply Sorted_StronglySorted; [apply row_ge_trans|].
  induction l as [|x l IH]; simpl; [constructor|]. by apply insert_desc_Sorted.
Qed.

Lemma StronglySorted_lookup (l : list Row) (i j : nat) (ri rj : Row) :
  StronglySorted row_ge l -> i < j -> l !! i = Some ri -> l !! j = Some rj ->
  row_ge ri rj.
Proof.
  intros Hl. revert i j. induction Hl as [|x l Hl IH Hx]; intros i j Hij Hi Hj.
  - by rewrite lookup_nil in Hi.
  - destruct j as [|j]; [lia|]. simpl in Hj. destruct i as [|i]; simpl in Hi.
    + injection Hi as <-. rewrite List.Forall_forall in Hx. apply Hx.
      apply list_elem_of_In. by eapply list_elem_of_lookup_2.
    + apply (IH i j); [lia|done..].
Qed.

(** * Dictionaries and pairs *)

Section dict_facts.
Context {K V : Type} `{EqDecision K}.
Implicit Types (d : dict K V) (k : K) (v : V).

Lemma dict_set_fresh d k v : k ∉ keys d -> dict_set d k v = d ++ [(k, v)].
Proof.
  induction d as [|[k' v'] d IH]; simpl; [done|].
  intros Hk. apply not_elem_of_cons in Hk as [Hne Hk].
  destruct (decide (k' = k)); [congruence|]. by rewrite IH.
Qed.

Lemma keys_dict_set d k v k' : k' ∈ keys (dict_set d k v) <-> k' = k ∨ k' ∈ keys d.
Proof.
  induction d as [|[k0 v0] d IH]; simpl.
  - rewrite list_elem_of_singleton, elem_of_nil. tauto.
  - destruct (decide (k0 = k)) as [->|Hne]; simpl.
    + rewrite !elem_of_cons. tauto.
    + rewrite !elem_of_cons, IH. tauto.
Qed.

Lemma dict_set_NoDup d k v : NoDup (keys d) -> NoDup (keys (dict_set d k v)).
Proof.
  induction d as [|[k0 v0] d IH]; simpl; intros Hd.
  - apply NoDup_singleton.
  - apply NoDup_cons in Hd as [Hk0 Hd].
    destruct (decide (k0 = k)) as [->|Hne]; simpl.
    + by apply NoDup_cons.
    + apply NoDup_cons. split; [|by apply IH].
      rewrite keys_dict_set. intros [?|?]; congruence.
Qed.

Lemma dict_set_length d k v : length (dict_set d k v) <= S (length d).
Proof.
  induction d as [|[k0 v0] d IH]; simpl; [lia|].
  destruct (decide (k0 = k)); simpl; lia.
Qed.

Lemma dict_get_Some d k v : NoDup (keys d) -> dict_get d k = Some v <-> (k, v) ∈ d.
Proof.
  induction d as [|[k0 v0] d IH]; simpl; intros Hd.
  - rewrite elem_of_nil. split; [done|tauto].
  - apply NoDup_cons in Hd as [Hk0 Hd]. rewrite elem_of_cons.
    destruct (decide (k0 = k)) as [->|Hne].
    + split; [intros [= ->]; by left|].
      intros [[= ->]|Hin]; [done|].
      destruct Hk0. apply list_elem_of_fmap. by exists (k, v).
    + rewrite IH by done. split; [by right|].
      intros [[= ? ?]|Hin]; [congruence|done].
Qed.

Lemma dict_item_unique d k v v' :
  NoDup (keys d) -> (k, v) ∈ d -> (k, v') ∈ d -> v = v'.
Proof.
  intros Hd H1 H2. apply (dict_get_Some d k v Hd) in H1.
  apply (dict_get_Some d k v' Hd) in H2. congruence.
Qed.
End dict_facts.

Section combinations_facts.
Context {A : Type}.
Implicit Types (l : list A) (x y : A).

Lemma elem_of_combinations l x y :
  (x, y) ∈ combinations l -> x ∈ l ∧ y ∈ l.
Proof.
  induction l as [|z l IH]; simpl; [by rewrite elem_of_nil|].
  rewrite elem_of_app, list_elem_of_fmap, !elem_of_cons.
  intros [(y' & [= -> ->] & Hy)|Hin]; [by auto|].
  destruct (IH Hin); auto.
Qed.

Lemma combinations_distinct l x y :
  NoDup l -> (x, y) ∈ combinations l -> x ≠ y.
Proof.
  induction l as [|z l IH]; simpl; [by rewrite elem_of_nil|].
  intros [Hz Hl]%NoDup_cons.
  rewrite elem_of_app, list_elem_of_fmap.
  intros [(y' & [= -> ->] & Hy)|Hin]; [congruence|by apply IH].
Qed.

Lemma combinations_not_reversed l x y :
  NoDup l -> (x, y) ∈ combinations l -> (y, x) ∉ combinations l.
Proof.
  induction l as [|z l IH]; simpl; [by rewrite elem_of_nil|].
  intros [Hz Hl]%NoDup_cons.
  rewrite !elem_of_app, !list_elem_of_fmap.
  intros [(y' & [= -> ->] & Hy)|Hin] [(x' & [= <- <-] & Hx)|Hin'].
  - done.
  - by apply elem_of_combinations in Hin' as [_ ?].
  - by apply elem_of_combinations in Hin as [_ ?].
  - by apply (IH Hl Hin).
Qed.

Lemma combinations_complete l x y :
  x ∈ l -> y ∈ l -> x ≠ y -> (x, y) ∈ combinations l ∨ (y, x) ∈ combinations l.
Proof.
  induction l as [|z l IH]; simpl; [by rewrite elem_of_nil|].
  rewrite !elem_of_cons, !elem_of_app, !list_elem_of_fmap.
  intros [->|Hx] [->|Hy] Hne.
  - done.
  - left. left. by exists y.
  - right. left. by exists x.
  - destruct (IH Hx Hy Hne); auto.
Qed.

Lemma combinations_NoDup l : NoDup l -> NoDup (combinations l).
Proof.
  induction l as [|z l IH]; simpl; [constructor|].
  intros [Hz Hl]%NoDup_cons. apply NoDup_app. split; [|split].
  - apply NoDup_fmap_2; [|done]. by intros y y' [= ->].
  - intros [x y] (y' & [= -> ->] & Hy)%list_elem_of_fmap Hin.
    by apply elem_of_combinations in Hin as [? _].
  - by apply IH.
Qed.

Lemma combinations_fmap {B} (f : A -> B) l :
  combinations (f <$> l) = prod_map f f <$> combinations l.
Proof.
  induction l as [|z l IH]; csimpl; [done|].
  rewrite fmap_app, IH. f_equal.
  rewrite <- !list_fmap_compose. by apply list_fmap_ext.
Qed.

Lemma combinations_short l : length l <= 1 -> combinations l = [].
Proof. destruct l as [|x [|y l]]; simpl; [done..|lia]. Qed.
End combinations_facts.

(** * Loading the sources *)

Lemma load_NoDup managers (database : dict string gene_sets) mappings :
  NoDup (keys database) -> NoDup (keys (load managers database mappings).1).
Proof.
  revert database mappings.
  induction managers as [|[name m] ms IH]; intros db mp Hdb; simpl; [done|].
  destruct (is_populated m); apply IH; [by apply dict_set_NoDup|done].
Qed.


Lemma load_populated managers (database : dict string gene_sets) mappings name :
  name ∈ keys (load managers database mappings).1 <->
  name ∈ keys database ∨ exists m, (name, m) ∈ managers ∧ is_populated m = true.
Proof.
  revert database mappings.
  induction managers as [|[n m] ms IH]; intros db mp; simpl.
  - split; [by left|]. intros [?|(m & Hin & _)]; [done|]. by apply elem_of_nil in Hin.
  - destruct (is_populated m) eqn:Hm; rewrite IH; [rewrite keys_dict_set|].
    + split.
      * intros [[->|?]|(m' & Hin & Hp)]; [right; exists m|by left|right; exists m'].
        -- split; [by left|done].
        -- split; [by right|done].
      * intros [?|(m' & [[= -> ->]|Hin]%elem_of_cons & Hp)]; [by auto|by auto|].
        right. by exists m'.
    + split.
      * intros [?|(m' & Hin & Hp)]; [by left|right; exists m'].
        split; [by right|done].
      * intros [?|(m' & [[= -> ->]|Hin]%elem_of_cons & Hp)]; [by auto|congruence|].
        right. by exists m'.
Qed.

Lemma load_length managers (database : dict string gene_sets) mappings :
  length (load managers database mappings).1
  <= length database + length (populated managers).
Proof.
  revert database mappings. unfold populated.
  induction managers as [|[n m] ms IH]; intros db mp; simpl; [lia|].
  rewrite filter_cons. simpl. destruct (is_populated m) eqn:Hm.
  - rewrite decide_True by done. simpl.
    specialize (IH (dict_set db n (get_pathway_id_to_symbols m))
                   (<[n:=get_pathway_id_name_mapping m]> mp)).
    pose proof (dict_set_length db n (get_pathway_id_to_symbols m)). lia.
  - rewrite decide_False by done. apply IH.
Qed.

Lemma database_of_NoDup managers : NoDup (keys (database_of managers)).
Proof. apply load_NoDup. constructor. Qed.


Lemma database_of_populated managers name :
  name ∈ keys (database_of managers) <->
  exists m, (name, m) ∈ managers ∧ is_populated m = true.
Proof.
  unfold database_of. rewrite load_populated. split; [|by right].
  intros [Hin|?]; [|done]. by apply elem_of_nil in Hin.
Qed.

(** * The inner loop *)

Lemma getitem_Ok {V} (m : gmap string V) k v : getitem m k = Ok v <-> m !! k = Some v.
Proof. unfold getitem. destruct (m !! k); split; congruence. Qed.


Lemma elem_of_product {A B} (a : list A) (b : list B) x y :
  (x, y) ∈ product a b <-> x ∈ a ∧ y ∈ b.
Proof.
  unfold product. rewrite list_elem_of_bind. split.
  - intros (x' & (y' & [= -> ->] & Hy)%list_elem_of_fmap & Hx). done.
  - intros [Hx Hy]. exists x. split; [|done]. apply list_elem_of_fmap. by exists y.
Qed.

Section inner_loop.
Context (ratio : string -> string -> Qc) (mg ms : Qc).
Context (a_name b_name : string) (a_mappings b_mappings : name_mapping).

Local Abbreviation row_of := (pathway_pair_row ratio mg ms a_name b_name a_mappings b_mappings).
Local Abbreviation loop := (rows_loop ratio mg ms a_name b_name a_mappings b_mappings).

Lemma pathway_pair_row_Ok pa sa pb sb r :
  row_of ((pa, sa), (pb, sb)) = Ok r ->
  exists g, calculate_jaccard sa sb = Ok g ∧
    (((g < mg)%Qc ∨ (ratio a_name b_name < ms)%Qc) ∧ r = None
     ∨ (mg ≤ g)%Qc ∧ (ms ≤ ratio a_name b_name)%Qc ∧
       exists na nb, a_mappings !! pa = Some na ∧ b_mappings !! pb = Some nb ∧
         r = Some {| row_a_id := pa; row_a_name := na; row_b_id := pb;
                     row_b_name := nb; gene_set_similarity := g;
                     string_similarity := ratio a_name b_name |}).
Proof.
  unfold pathway_pair_row. intros (g & Hg & Hr)%bind_Ok. exists g. split; [done|].
  case_bool_decide as Hlt; [injection Hr as <-; by auto|].
  case_bool_decide as Hlt'; [injection Hr as <-; by auto|].
  apply bind_Ok in Hr as (na & Hna%getitem_Ok & Hr).
  apply bind_Ok in Hr as (nb & Hnb%getitem_Ok & [= <-]).
  right. split; [by apply Qcnot_lt_le|]. split; [by apply Qcnot_lt_le|].
  by exists na, nb.
Qed.


Lemma rows_loop_acc it rows :
  loop it rows = loop it [] ≫= λ rs, Ok (rows ++ rs).
Proof.
  revert rows. induction it as [|x it IH]; intros rows; simpl.
  - by rewrite app_nil_r.
  - destruct (row_of x) as [[row|]|e]; simpl; [|apply IH|done].
    rewrite (IH (rows ++ [row])), (IH [row]).
    destruct (loop it []) as [rs|e]; simpl; [|done].
    by rewrite <- app_assoc.
Qed.

Lemma rows_loop_cons x it :
  loop (x :: it) [] =
  row_of x ≫= λ r, loop it [] ≫= λ rs, Ok (option_list r ++ rs).
Proof.
  simpl. destruct (row_of x) as [[row|]|e]; simpl; [|by destruct (loop it [])|done].
  apply rows_loop_acc.
Qed.

Lemma rows_loop_Ok it rs :
  loop it [] = Ok rs ->
  (forall x, x ∈ it -> exists r, row_of x = Ok r) ∧
  (forall row, row ∈ rs <-> exists x, x ∈ it ∧ row_of x = Ok (Some row)).
Proof.
  revert rs. induction it as [|x it IH]; intros rs.
  - intros [= <-]. split; [by intros x ?%elem_of_nil|].
    intros row. rewrite elem_of_nil. split; [done|].
    by intros (x & ?%elem_of_nil & _).
  - rewrite rows_loop_cons.
    intros (r & Hr & (rs' & Hrs' & [= <-])%bind_Ok)%bind_Ok.
    destruct (IH rs' Hrs') as [IH1 IH2]. split.
    + intros y [->|Hy]%elem_of_cons; [by exists r|by apply IH1].
    + intros row. rewrite elem_of_app, IH2. split.
      * intros [Hrow|(y & Hy & Hrow)].
        -- destruct r as [row'|]; simpl in Hrow; [|by apply elem_of_nil in Hrow].
           apply list_elem_of_singleton in Hrow as ->. exists x. split; [by left|done].
        -- exists y. split; [by right|done].
      * intros (y & [->|Hy]%elem_of_cons & Hrow).
        -- left. rewrite Hrow in Hr. injection Hr as <-. simpl. by left.
        -- right. by exists y.
Qed.

End inner_loop.

(** * The loop over the pairs of sources *)

Lemma pair_keys_combinations (database : dict string gene_sets) :
  pair_key <$> combinations database = combinations (keys database).
Proof. unfold keys. rewrite combinations_fmap. by apply list_fmap_ext. Qed.

Lemma pair_keys_NoDup managers :
  NoDup (pair_key <$> combinations (database_of managers)).
Proof.
  rewrite pair_keys_combinations. apply combinations_NoDup, database_of_NoDup.
Qed.

Section outer_loop.
Context (ratio : string -> string -> Qc) (directory : string) (mg ms : Qc).

Local Abbreviation frame := (pair_frame ratio mg ms).
Local Abbreviation ploop := (pairs_loop ratio directory mg ms).
Local Abbreviation run := (make_similarity_matricies ratio directory mg ms).

Lemma similarity_frame_Ok mappings a_name a_sets b_name b_sets df :
  similarity_frame ratio mg ms mappings a_name a_sets b_name b_sets = Ok df ->
  exists a_mappings b_mappings rs,
    mappings !! a_name = Some a_mappings ∧ mappings !! b_name = Some b_mappings ∧
    rows_loop ratio mg ms a_name b_name a_mappings b_mappings
      (product a_sets b_sets) [] = Ok rs ∧
    df = {| columns := report_columns a_name b_name; rows := sort_values_desc rs |}.
Proof.
  unfold similarity_frame.
  intros (am & Ham%getitem_Ok & H)%bind_Ok.
  apply bind_Ok in H as (bm & Hbm%getitem_Ok & H).
  apply bind_Ok in H as (rs & Hrs & [= <-]).
  by exists am, bm, rs.
Qed.

Lemma pairs_loop_step mappings p pairs rv :
  ploop mappings (p :: pairs) rv =
  match frame mappings p with
  | Raise e => ([], Raise e)
  | Ok df =>
      let rest := ploop mappings pairs (dict_set rv (pair_key p) df) in
      (pair_event directory p df :: rest.1, rest.2)
  end.
Proof. by destruct p as [[a_name a_sets] [b_name b_sets]]. Qed.

Lemma pairs_loop_app mappings pre dfs rest rv :
  Forall2 (λ p df, frame mappings p = Ok df) pre dfs ->
  NoDup (keys rv ++ (pair_key <$> pre)) ->
  ploop mappings (pre ++ rest) rv =
  (zip_with (pair_event directory) pre dfs
     ++ (ploop mappings rest (rv ++ zip (pair_key <$> pre) dfs)).1,
   (ploop mappings rest (rv ++ zip (pair_key <$> pre) dfs)).2).
Proof.
  intros Hok. revert rv.
  induction Hok as [|p df pre dfs Hp Hok IH]; intros rv Hnd.
  - simpl. rewrite app_nil_r. by destruct (ploop mappings rest rv).
  - rewrite <- app_comm_cons, pairs_loop_step, Hp. cbn zeta.
    rewrite fmap_cons in Hnd.
    assert (pair_key p ∉ keys rv) as Hfresh.
    { apply NoDup_app in Hnd as (_ & Hnd & _). intros Hin.
      apply (Hnd _ Hin). by left. }
    rewrite dict_set_fresh by done.
    rewrite IH.
    + simpl. by rewrite <- app_assoc.
    + unfold keys. rewrite fmap_app, <- app_assoc. simpl.
      by apply NoDup_app in Hnd as Hnd'; apply NoDup_app.
Qed.

Lemma pairs_loop_frames mappings pairs rv evs rv' :
  ploop mappings pairs rv = (evs, Ok rv') ->
  exists dfs, Forall2 (λ p df, frame mappings p = Ok df) pairs dfs.
Proof.
  revert rv evs. induction pairs as [|p pairs IH]; intros rv evs.
  - intros _. by exists [].
  - rewrite pairs_loop_step. destruct (frame mappings p) as [df|e] eqn:Hp; [|done].
    cbn zeta.
    destruct (ploop mappings pairs (dict_set rv (pair_key p) df)) as [evs' r] eqn:Hrest.
    simpl. intros [= _ ->].
    destruct (IH _ _ Hrest) as [dfs Hdfs]. exists (df :: dfs). by constructor.
Qed.

Lemma run_frames managers dfs :
  Forall2 (λ p df, frame (mappings_of managers) p = Ok df)
    (combinations (database_of managers)) dfs ->
  run managers =
  (MakeDirs directory
     :: zip_with (pair_event directory) (combinations (database_of managers)) dfs,
   Ok (zip (pair_key <$> combinations (database_of managers)) dfs)).
Proof.
  intros Hdfs. unfold make_similarity_matricies.
  fold (database_of managers) (mappings_of managers).
  pose proof (pairs_loop_app (mappings_of managers) _ dfs [] [] Hdfs) as Happ.
  rewrite !app_nil_r in Happ. rewrite Happ; [done|].
  apply pair_keys_NoDup.
Qed.

Lemma run_Ok managers evs rv :
  run managers = (evs, Ok rv) ->
  exists dfs,
    Forall2 (λ p df, frame (mappings_of managers) p = Ok df)
      (combinations (database_of managers)) dfs ∧
    evs = MakeDirs directory
            :: zip_with (pair_event directory) (combinations (database_of managers)) dfs ∧
    rv = zip (pair_key <$> combinations (database_of managers)) dfs.
Proof.
  intros Hrun.
  assert (exists dfs, Forall2 (λ p df, frame (mappings_of managers) p = Ok df)
            (combinations (database_of managers)) dfs) as [dfs Hdfs].
  { unfold make_similarity_matricies in Hrun.
    fold (database_of managers) (mappings_of managers) in Hrun.
    destruct (ploop (mappings_of managers) (combinations (database_of managers)) [])
      as [evs' r] eqn:Hloop.
    simpl in Hrun. injection Hrun as _ ->. by eapply pairs_loop_frames. }
  exists dfs. rewrite (run_frames _ _ Hdfs) in Hrun. by injection Hrun as <- <-.
Qed.

Lemma run_keys managers evs rv :
  run managers = (evs, Ok rv) -> keys rv = combinations (keys (database_of managers)).
Proof.
  intros (dfs & Hdfs & _ & ->)%run_Ok. unfold keys at 1.
  rewrite fst_zip, pair_keys_combinations; [done|].
  apply Forall2_length in Hdfs. rewrite length_fmap. lia.
Qed.

Lemma run_entry managers evs rv k df :
  run managers = (evs, Ok rv) -> (k, df) ∈ rv ->
  exists p, p ∈ combinations (database_of managers) ∧ pair_key p = k ∧
            frame (mappings_of managers) p = Ok df.
Proof.
  intros (dfs & Hdfs & _ & ->)%run_Ok.
  induction Hdfs as [|p df' pairs dfs Hp Hdfs IH]; simpl.
  - by intros ?%elem_of_nil.
  - intros [[= -> ->]|Hin]%elem_of_cons.
    + exists p. split; [by left|done].
    + destruct (IH Hin) as (q & Hq & Hk & Hf). exists q. split; [by right|done].
Qed.

End outer_loop.

Lemma dict_get_elem {K V} `{EqDecision K} (d : dict K V) k v :
  dict_get d k = Some v -> (k, v) ∈ d.
Proof.
  induction d as [|[k0 v0] d IH]; simpl; [done|].
  destruct (decide (k0 = k)) as [->|Hne].
  - intros [= ->]. by left.
  - intros Hd. right. by apply IH.
Qed.

(** * The similarity engine *)

(** The example sources at the gene set threshold one tenth: the report of
    the pair (X, Y) holds three of the six pathway pairs, in sorted order. *)
Example example_report_rows :
  (λ r, (row_a_id r, row_b_id r)) <$> rows (example_report (Q2Qc (1 # 10)))
  = [("p2", "q2"); ("p1", "q1"); ("p1", "q2")].
Proof. vm_compute. reflexivity. Qed.

Example example_run_events :
  (example_run (Q2Qc (1 # 10))).1
  = [MakeDirs "out"; ToCsv "out/X_Y.tsv" (example_report (Q2Qc (1 # 10)))].
Proof. vm_compute. reflexivity. Qed.

(** C3: when the run returns, the keys of the returned mapping hold exactly
    one entry for every unordered pair of two different populated sources:
    no key occurs twice, every key joins two different populated sources,
    the reverse of a key is not a key, and two different populated sources
    are joined by a key in one of the two orders. *)
Theorem report_per_unordered_pair (ratio : string -> string -> Qc)
    (directory : string) (mg ms : Qc) (managers : list (string * Manager))
    (evs : list event) (rv : dict (string * string) DataFrame) :
  make_similarity_matricies ratio directory mg ms managers = (evs, Ok rv) ->
  NoDup (keys rv) ∧
  (forall a b, (a, b) ∈ keys rv ->
     a ≠ b ∧ ((b, a) ∉ keys rv) ∧
     (exists m, (a, m) ∈ managers ∧ is_populated m = true) ∧
     (exists m, (b, m) ∈ managers ∧ is_populated m = true)) ∧
  (forall a b ma mb,
     (a, ma) ∈ managers -> is_populated ma = true ->
     (b, mb) ∈ managers -> is_populated mb = true ->
     a ≠ b -> (a, b) ∈ keys rv ∨ (b, a) ∈ keys rv).
Proof.
  intros Hrun. rewrite (run_keys _ _ _ _ _ _ _ Hrun).
  pose proof (database_of_NoDup managers) as Hnd.
  split; [by apply combinations_NoDup|]. split.
  - intros a b Hab. split; [by eapply combinations_distinct|].
    split; [by apply combinations_not_reversed|].
    apply elem_of_combinations in Hab as [Ha Hb].
    by rewrite <- !database_of_populated.
  - intros a b ma mb Ha Hpa Hb Hpb Hne.
    apply combinations_complete; [..|done]; apply database_of_populated; eauto.
Qed.

Lemma report_per_unordered_pair_witness :
  NoDup (keys (returned (example_run (Q2Qc (1 # 10))).2)) ∧
  (forall a b, (a, b) ∈ keys (returned (example_run (Q2Qc (1 # 10))).2) ->
     a ≠ b ∧ ((b, a) ∉ keys (returned (example_run (Q2Qc (1 # 10))).2)) ∧
     (exists m, (a, m) ∈ example_managers ∧ is_populated m = true) ∧
     (exists m, (b, m) ∈ example_managers ∧ is_populated m = true)) ∧
  (forall a b ma mb,
     (a, ma) ∈ example_managers -> is_populated ma = true ->
     (b, mb) ∈ example_managers -> is_populated mb = true ->
     a ≠ b ->
     (a, b) ∈ keys (returned (example_run (Q2Qc (1 # 10))).2)
     ∨ (b, a) ∈ keys (returned (example_run (Q2Qc (1 # 10))).2)).
Proof.
  apply (report_per_unordered_pair example_ratio "out" (Q2Qc (1 # 10)) (Q2Qc 0)
           example_managers (example_run (Q2Qc (1 # 10))).1).
  vm_compute. reflexivity.
Defined.

(** C4: in every returned report the rows stand in descending order of the
    first source's pathway identifier and, among equal identifiers, in
    descending order of the gene set similarity: of two rows, the earlier
    one is greater than or equal to the later one in this order. *)
Theorem report_rows_sorted (ratio : string -> string -> Qc)
    (directory : string) (mg ms : Qc) (managers : list (string * Manager))
    (evs : list event) (rv : dict (string * string) DataFrame)
    (k : string * string) (df : DataFrame) (i j : nat) (ri rj : Row) :
  make_similarity_matricies ratio directory mg ms managers = (evs, Ok rv) ->
  dict_get rv k = Some df ->
  i < j -> rows df !! i = Some ri -> rows df !! j = Some rj ->
  row_ge ri rj.
Proof.
  intros Hrun Hdf%dict_get_elem Hij Hi Hj.
  destruct (run_entry _ _ _ _ _ _ _ _ _ Hrun Hdf) as (p & _ & _ & Hp).
  apply similarity_frame_Ok in Hp as (am & bm & rs & _ & _ & _ & ->).
  simpl in Hi, Hj. eapply StronglySorted_lookup; [|done..].
  apply sort_values_desc_StronglySorted.
Qed.

Lemma report_rows_sorted_witness :
  row_ge
    {| row_a_id := "p1"; row_a_name := "Alpha"; row_b_id := "q1"; row_b_name := "Gamma";
       gene_set_similarity := (Qc_of_Z 2 / Qc_of_Z 2)%Qc;
       string_similarity := Q2Qc (1 # 4) |}
    {| row_a_id := "p1"; row_a_name := "Alpha"; row_b_id := "q2"; row_b_name := "Delta";
       gene_set_similarity := (Qc_of_Z 1 / Qc_of_Z 3)%Qc;
       string_similarity := Q2Qc (1 # 4) |}.
Proof.
  apply (report_rows_sorted example_ratio "out" (Q2Qc (1 # 10)) (Q2Qc 0)
           example_managers (example_run (Q2Qc (1 # 10))).1
           (returned (example_run (Q2Qc (1 # 10))).2) ("X", "Y")
           (example_report (Q2Qc (1 # 10))) 1 2).
  - vm_compute. reflexivity.
  - vm_compute. reflexivity.
  - lia.
  - vm_compute. reflexivity.
  - vm_compute. reflexivity.
Defined.

Lemma calculate_jaccard_Raise (s1 s2 : gset string) e :
  calculate_jaccard s1 s2 = Raise e -> e = ZeroDivisionError.
Proof.
  unfold calculate_jaccard, truediv.
  destruct (Nat.eqb _ 0); [by intros [= <-]|done].
Qed.

(** The source pair behind an entry of the returned mapping, with the gene
    sets the database holds for the two names. *)
Lemma run_entry_sets ratio directory mg ms managers evs rv a b df a_sets b_sets :
  make_similarity_matricies ratio directory mg ms managers = (evs, Ok rv) ->
  dict_get rv (a, b) = Some df ->
  dict_get (database_of managers) a = Some a_sets ->
  dict_get (database_of managers) b = Some b_sets ->
  similarity_frame ratio mg ms (mappings_of managers) a a_sets b b_sets = Ok df.
Proof.
  intros Hrun Hdf%dict_get_elem Ha%dict_get_elem Hb%dict_get_elem.
  destruct (run_entry _ _ _ _ _ _ _ _ _ Hrun Hdf)
    as ([[a' a_sets'] [b' b_sets']] & Hp & [= -> ->] & Hframe).
  apply elem_of_combinations in Hp as [Ha' Hb'].
  pose proof (database_of_NoDup managers) as Hnd.
  rewrite (dict_item_unique _ _ _ _ Hnd Ha Ha'), (dict_item_unique _ _ _ _ Hnd Hb Hb').
  exact Hframe.
Qed.



(** * Raising the gene set threshold *)

Section antitone.
Context (ratio : string -> string -> Qc) (directory : string) (ms t1 t2 : Qc).
Hypothesis Hle : (t1 ≤ t2)%Qc.

Lemma pathway_pair_row_antitone a_name b_name am bm x r1 :
  pathway_pair_row ratio t1 ms a_name b_name am bm x = Ok r1 ->
  exists r2, pathway_pair_row ratio t2 ms a_name b_name am bm x = Ok r2 ∧
             length (option_list r2) <= length (option_list r1).
Proof.
  destruct x as [[pa sa] [pb sb]]. unfold pathway_pair_row.
  intros (g & Hg & Hr)%bind_Ok. rewrite Hg. simpl.
  destruct (decide (g < t2)%Qc) as [Hlt|Hge].
  - rewrite bool_decide_true by done. exists None. split; [done|]. simpl. lia.
  - rewrite (bool_decide_false _ Hge).
    rewrite bool_decide_false in Hr; [by exists r1|].
    intros Hlt. apply Hge. by eapply Qclt_le_trans.
Qed.

Lemma rows_loop_antitone a_name b_name am bm it rs1 :
  rows_loop ratio t1 ms a_name b_name am bm it [] = Ok rs1 ->
  exists rs2, rows_loop ratio t2 ms a_name b_name am bm it [] = Ok rs2 ∧
              length rs2 <= length rs1.
Proof.
  revert rs1. induction it as [|x it IH]; intros rs1.
  - intros [= <-]. by exists [].
  - rewrite !rows_loop_cons.
    intros (r1 & Hr1 & (rs1' & Hrs1 & [= <-])%bind_Ok)%bind_Ok.
    destruct (pathway_pair_row_antitone _ _ _ _ _ _ Hr1) as (r2 & -> & Hlen).
    destruct (IH _ Hrs1) as (rs2 & -> & Hlen').
    exists (option_list r2 ++ rs2). split; [done|].
    rewrite !length_app. lia.
Qed.

Lemma similarity_frame_antitone mappings p df1 :
  pair_frame ratio t1 ms mappings p = Ok df1 ->
  exists df2, pair_frame ratio t2 ms mappings p = Ok df2 ∧
              length (rows df2) <= length (rows df1).
Proof.
  unfold pair_frame.
  intros (am & bm & rs1 & Ham & Hbm & Hrs1 & ->)%similarity_frame_Ok.
  destruct (rows_loop_antitone _ _ _ _ _ _ Hrs1) as (rs2 & Hrs2 & Hlen).
  unfold similarity_frame, getitem. rewrite Ham, Hbm. simpl. rewrite Hrs2. simpl.
  eexists. split; [done|]. simpl.
  by rewrite !sort_values_desc_Permutation.
Qed.

Lemma frames_antitone mappings pairs dfs1 :
  Forall2 (λ p df, pair_frame ratio t1 ms mappings p = Ok df) pairs dfs1 ->
  exists dfs2,
    Forall2 (λ p df, pair_frame ratio t2 ms mappings p = Ok df) pairs dfs2 ∧
    Forall2 (λ df1 df2, length (rows df2) <= length (rows df1)) dfs1 dfs2.
Proof.
  induction 1 as [|p df1 pairs dfs1 Hp _ (dfs2 & Hdfs2 & Hlen)]; [by exists []|].
  destruct (similarity_frame_antitone _ _ _ Hp) as (df2 & Hdf2 & Hlen2).
  exists (df2 :: dfs2). split; by constructor.
Qed.

End antitone.

Lemma dict_get_zip_Forall2 {K A B} `{EqDecision K} (R : A -> B -> Prop)
    (ks : list K) (l1 : list A) (l2 : list B) k v1 v2 :
  Forall2 R l1 l2 ->
  dict_get (zip ks l1) k = Some v1 -> dict_get (zip ks l2) k = Some v2 -> R v1 v2.
Proof.
  intros Hl. revert ks. induction Hl as [|x y l1 l2 Hxy Hl IH]; intros [|k0 ks]; simpl;
    [done..|].
  destruct (decide (k0 = k)); [by intros [= <-] [= <-]|by apply IH].
Qed.

(** C6: with the sources, the string threshold and the gene sets fixed, a
    run that returns at the gene set threshold [t1] also returns at every
    threshold [t2] above [t1], with the same pairs of sources, and each of
    its reports has at most as many rows as the report of the same pair
    at [t1]. *)
Theorem report_row_count_antitone (ratio : string -> string -> Qc)
    (directory : string) (ms t1 t2 : Qc) (managers : list (string * Manager))
    (evs1 : list event) (rv1 : dict (string * string) DataFrame) :
  (t1 ≤ t2)%Qc ->
  make_similarity_matricies ratio directory t1 ms managers = (evs1, Ok rv1) ->
  exists evs2 rv2,
    make_similarity_matricies ratio directory t2 ms managers = (evs2, Ok rv2) ∧
    keys rv2 = keys rv1 ∧
    forall k df1 df2,
      dict_get rv1 k = Some df1 -> dict_get rv2 k = Some df2 ->
      length (rows df2) <= length (rows df1).
Proof.
  intros Hle Hrun1.
  pose proof (run_keys _ _ _ _ _ _ _ Hrun1) as Hkeys1.
  apply run_Ok in Hrun1 as (dfs1 & Hdfs1 & _ & ->).
  destruct (frames_antitone ratio ms t1 t2 Hle _ _ _ Hdfs1) as (dfs2 & Hdfs2 & Hlen).
  pose proof (run_frames ratio directory t2 ms managers dfs2 Hdfs2) as Hrun2.
  eexists _, _. split; [exact Hrun2|]. split.
  - by rewrite Hkeys1, (run_keys _ _ _ _ _ _ _ Hrun2).
  - intros k df1 df2 H1 H2.
    by apply (dict_get_zip_Forall2 _ _ _ _ _ _ _ Hlen H1 H2).
Qed.

Lemma report_row_count_antitone_witness :
  exists evs2 rv2,
    make_similarity_matricies example_ratio "out" (Q2Qc (1 # 2)) (Q2Qc 0) example_managers
    = (evs2, Ok rv2) ∧
    keys rv2 = keys (returned (example_run (Q2Qc (1 # 10))).2) ∧
    forall k df1 df2,
      dict_get (returned (example_run (Q2Qc (1 # 10))).2) k = Some df1 ->
      dict_get rv2 k = Some df2 ->
      length (rows df2) <= length (rows df1).
Proof.
  apply (report_row_count_antitone example_ratio "out" (Q2Qc 0) (Q2Qc (1 # 10))
           (Q2Qc (1 # 2)) example_managers (example_run (Q2Qc (1 # 10))).1).
  - vm_compute. discriminate.
  - vm_compute. reflexivity.
Defined.

(** * Exceptions *)

Section raising.
Context (ratio : string -> string -> Qc) (directory : string) (mg ms : Qc).



Lemma pairs_loop_first_Raise mappings pre dfs p post e :
  Forall2 (λ q df, pair_frame ratio mg ms mappings q = Ok df) pre dfs ->
  NoDup (pair_key <$> pre) ->
  pair_frame ratio mg ms mappings p = Raise e ->
  pairs_loop ratio directory mg ms mappings (pre ++ p :: post) []
  = (zip_with (pair_event directory) pre dfs, Raise e).
Proof.
  intros Hpre Hnd Hp.
  rewrite (pairs_loop_app _ _ _ _ _ _ dfs _ _ Hpre) by done.
  rewrite pairs_loop_step, Hp. simpl. by rewrite app_nil_r.
Qed.

End raising.


(** C10: when the report of a pair of sources cannot be computed, because
    the overlap scorer or a name lookup raises, while the reports of the
    pairs before it were computed, the run ends with that exception and
    returns no mapping; the events it leaves are the creation of the
    directory and one complete report for each of the earlier pairs, and
    none for the failing pair or a later one. *)
Theorem failing_pair_writes_nothing (ratio : string -> string -> Qc)
    (directory : string) (mg ms : Qc) (managers : list (string * Manager))
    (pre : list source_pair) (p : source_pair) (post : list source_pair)
    (dfs : list DataFrame) (e : exception) :
  combinations (database_of managers) = pre ++ p :: post ->
  Forall2 (λ q df, pair_frame ratio mg ms (mappings_of managers) q = Ok df) pre dfs ->
  pair_frame ratio mg ms (mappings_of managers) p = Raise e ->
  make_similarity_matricies ratio directory mg ms managers
  = (MakeDirs directory :: zip_with (pair_event directory) pre dfs, Raise e).
Proof.
  intros Hpairs Hpre Hp. unfold make_similarity_matricies.
  fold (database_of managers) (mappings_of managers). rewrite Hpairs.
  rewrite (pairs_loop_first_Raise _ _ _ _ _ _ dfs _ _ e Hpre); [done| |done].
  pose proof (pair_keys_NoDup managers) as Hnd.
  rewrite Hpairs, fmap_app in Hnd. by apply NoDup_app in Hnd as [? _].
Qed.

Lemma failing_pair_writes_nothing_witness :
  make_similarity_matricies example_ratio "out" (Q2Qc (1 # 10)) (Q2Qc 0) failing_managers
  = (MakeDirs "out"
       :: zip_with (pair_event "out") [pair_X_Y] [example_report (Q2Qc (1 # 10))],
     Raise ZeroDivisionError).
Proof.
  apply (failing_pair_writes_nothing example_ratio "out" (Q2Qc (1 # 10)) (Q2Qc 0)
           failing_managers [pair_X_Y] pair_X_W [pair_Y_W]
           [example_report (Q2Qc (1 # 10))] ZeroDivisionError).
  - vm_compute. reflexivity.
  - constructor; [|constructor]. vm_compute. reflexivity.
  - vm_compute. reflexivity.
Defined.


(** * More on the overlap scorer *)

Lemma Qc_of_nat_pos (m : nat) : m ≠ 0 -> (0 < Qc_of_Z (Z.of_nat m))%Qc.
Proof. intros Hm. rewrite <- Z2Qc_inj_0, <- Z2Qc_inj_lt. lia. Qed.

Lemma truediv_Ok (n m : nat) (q : Qc) :
  truediv n m = Ok q ->
  m ≠ 0 ∧ (q * Qc_of_Z (Z.of_nat m))%Qc = Qc_of_Z (Z.of_nat n).
Proof.
  unfold truediv. destruct (Nat.eqb_spec m 0) as [|Hm]; [done|].
  intros [= <-]. split; [done|].
  rewrite Qcmult_comm. by apply Qcmult_div_r, Qc_of_nat_nonzero.
Qed.

Lemma truediv_le_l (n m : nat) (q : Qc) (k : Z) :
  truediv n m = Ok q -> (Qc_of_Z k ≤ q)%Qc <-> (k * Z.of_nat m ≤ Z.of_nat n)%Z.
Proof.
  intros [Hm Hq]%truediv_Ok.
  rewrite (Qcmult_le_mono_pos_r _ _ (Qc_of_Z (Z.of_nat m))) by by apply Qc_of_nat_pos.
  by rewrite Hq, <- Z2Qc_inj_mul, <- Z2Qc_inj_le.
Qed.

Lemma truediv_le_r (n m : nat) (q : Qc) (k : Z) :
  truediv n m = Ok q -> (q ≤ Qc_of_Z k)%Qc <-> (Z.of_nat n ≤ k * Z.of_nat m)%Z.
Proof.
  intros [Hm Hq]%truediv_Ok.
  rewrite (Qcmult_le_mono_pos_r _ _ (Qc_of_Z (Z.of_nat m))) by by apply Qc_of_nat_pos.
  by rewrite Hq, <- Z2Qc_inj_mul, <- Z2Qc_inj_le.
Qed.

Lemma truediv_eq (n m : nat) (q : Qc) (k : Z) :
  truediv n m = Ok q -> q = Qc_of_Z k <-> (Z.of_nat n = k * Z.of_nat m)%Z.
Proof.
  intros Hq. split.
  - intros ->. apply Z.le_antisymm.
    + by apply (truediv_le_r _ _ _ k Hq).
    + by apply (truediv_le_l _ _ _ k Hq).
  - intros Heq. apply Qcle_antisym.
    + apply (truediv_le_r _ _ _ k Hq). lia.
    + apply (truediv_le_l _ _ _ k Hq). lia.
Qed.

Lemma size_intersection_le (s1 s2 : gset string) :
  size (s1 ∩ s2) <= Nat.min (size s1) (size s2).
Proof.
  apply Nat.min_glb; apply subseteq_size;
    [apply intersection_subseteq_l|apply intersection_subseteq_r].
Qed.

Lemma size_intersection_min (s1 s2 : gset string) :
  size (s1 ∩ s2) = Nat.min (size s1) (size s2) <-> s1 ⊆ s2 ∨ s2 ⊆ s1.
Proof.
  split.
  - intros Hsize. destruct (Nat.min_spec (size s1) (size s2)) as [[_ Hmin]|[_ Hmin]];
      rewrite Hmin in Hsize.
    + left. apply subseteq_intersection_L.
      apply set_subseteq_size_eq; [apply intersection_subseteq_l|lia].
    + right. apply subseteq_intersection_L. rewrite (comm_L (∩)).
      apply set_subseteq_size_eq; [apply intersection_subseteq_r|lia].
  - intros [Hsub|Hsub].
    + rewrite (subseteq_intersection_1_L _ _ Hsub).
      apply subseteq_size in Hsub. lia.
    + rewrite (comm_L (∩)), (subseteq_intersection_1_L _ _ Hsub).
      apply subseteq_size in Hsub. lia.
Qed.

Lemma calculate_jaccard_Ok_nonempty (s1 s2 : gset string) (q : Qc) :
  calculate_jaccard s1 s2 = Ok q -> s1 ≠ ∅ ∧ s2 ≠ ∅.
Proof.
  intros [Hm _]%truediv_Ok.
  split; intros ->; rewrite size_empty in Hm; lia.
Qed.

Lemma calculate_jaccard_nonneg (s1 s2 : gset string) (q : Qc) :
  calculate_jaccard s1 s2 = Ok q -> (0 ≤ q)%Qc.
Proof.
  intros Hq. unfold calculate_jaccard in Hq. cbn zeta in Hq.
  rewrite <- Z2Qc_inj_0. apply (truediv_le_l _ _ _ _ Hq). lia.
Qed.

Lemma calculate_jaccard_le_one (s1 s2 : gset string) (q : Qc) :
  calculate_jaccard s1 s2 = Ok q -> (q ≤ 1)%Qc.
Proof.
  intros Hq. unfold calculate_jaccard in Hq. cbn zeta in Hq.
  rewrite <- Z2Qc_inj_1. apply (truediv_le_r _ _ _ _ Hq).
  pose proof (size_intersection_le s1 s2). lia.
Qed.

(** X1: a score that [calculate_jaccard] returns lies between zero and one. *)
Theorem calculate_jaccard_range (s1 s2 : gset string) (q : Qc) :
  calculate_jaccard s1 s2 = Ok q -> (0 ≤ q)%Qc ∧ (q ≤ 1)%Qc.
Proof.
  intros Hq. split.
  - by eapply calculate_jaccard_nonneg.
  - by eapply calculate_jaccard_le_one.
Qed.

Lemma calculate_jaccard_range_witness :
  (0 ≤ Qc_of_Z 1 / Qc_of_Z 3)%Qc ∧ (Qc_of_Z 1 / Qc_of_Z 3 ≤ 1)%Qc.
Proof.
  apply (calculate_jaccard_range {[ "A"; "B"; "C" ]} {[ "A"; "D"; "E"; "F" ]}).
  vm_compute. reflexivity.
Defined.

(** X2: [calculate_jaccard] raises exactly when one of the two sets is empty,
    and the exception is then [ZeroDivisionError]. *)
Theorem calculate_jaccard_raises_iff_empty (s1 s2 : gset string) (e : exception) :
  calculate_jaccard s1 s2 = Raise e <-> e = ZeroDivisionError ∧ (s1 = ∅ ∨ s2 = ∅).
Proof.
  split.
  - intros Hraise. split; [by eapply calculate_jaccard_Raise|].
    destruct (decide (s1 = ∅)) as [|H1]; [by left|].
    destruct (decide (s2 = ∅)) as [|H2]; [by right|].
    by rewrite calculate_jaccard_nonempty in Hraise.
  - intros [-> [->| ->]]; unfold calculate_jaccard; rewrite size_empty;
      [done|by rewrite Nat.min_0_r].
Qed.

(** X3: the score is one exactly when the two sets are non-empty and one of
    them is included in the other. *)
Theorem calculate_jaccard_one_iff_subset (s1 s2 : gset string) :
  calculate_jaccard s1 s2 = Ok (Q2Qc 1) <->
  s1 ≠ ∅ ∧ s2 ≠ ∅ ∧ (s1 ⊆ s2 ∨ s2 ⊆ s1).
Proof.
  rewrite <- size_intersection_min. split.
  - intros Hq. apply calculate_jaccard_Ok_nonempty in Hq as Hne.
    destruct Hne as [H1 H2]. split; [done|]. split; [done|].
    unfold calculate_jaccard in Hq. cbn zeta in Hq.
    pose proof (proj1 (truediv_eq _ _ _ 1 Hq)) as Heq.
    rewrite Z2Qc_inj_1 in Heq. specialize (Heq eq_refl). lia.
  - intros (H1 & H2 & Hsize).
    pose proof (calculate_jaccard_nonempty s1 s2 H1 H2) as Hq. rewrite Hq.
    unfold calculate_jaccard in Hq. cbn zeta in Hq. f_equal.
    rewrite <- Z2Qc_inj_1. apply (truediv_eq _ _ _ 1 Hq). lia.
Qed.

(** X4: the score is zero exactly when the two sets are non-empty and share
    no gene symbol. *)
Theorem calculate_jaccard_zero_iff_disjoint (s1 s2 : gset string) :
  calculate_jaccard s1 s2 = Ok (Q2Qc 0) <-> s1 ≠ ∅ ∧ s2 ≠ ∅ ∧ s1 ∩ s2 = ∅.
Proof.
  split.
  - intros Hq. apply calculate_jaccard_Ok_nonempty in Hq as Hne.
    destruct Hne as [H1 H2]. split; [done|]. split; [done|].
    unfold calculate_jaccard in Hq. cbn zeta in Hq.
    pose proof (proj1 (truediv_eq _ _ _ 0 Hq)) as Heq.
    rewrite Z2Qc_inj_0 in Heq. specialize (Heq eq_refl).
    apply leibniz_equiv, size_empty_iff. lia.
  - intros (H1 & H2 & Hdisj).
    pose proof (calculate_jaccard_nonempty s1 s2 H1 H2) as Hq. rewrite Hq.
    unfold calculate_jaccard in Hq. cbn zeta in Hq. f_equal.
    rewrite <- Z2Qc_inj_0. apply (truediv_eq _ _ _ 0 Hq).
    rewrite Hdisj, size_empty. lia.
Qed.

(** * More on loading the sources *)

Lemma load_populated_only managers (database : dict string gene_sets) mappings :
  load managers database mappings = load (populated managers) database mappings.
Proof.
  revert database mappings. unfold populated.
  induction managers as [|[n m] ms IH]; intros db mp; [done|].
  rewrite filter_cons. simpl. destruct (is_populated m) eqn:Hm.
  - rewrite decide_True by done. simpl. rewrite Hm. apply IH.
  - rewrite decide_False by done. apply IH.
Qed.

Lemma load_fresh managers (database : dict string gene_sets) mappings :
  NoDup (keys database ++ managers.*1) ->
  (load managers database mappings).1
  = database ++ ((λ nm, (nm.1, get_pathway_id_to_symbols nm.2)) <$> populated managers).
Proof.
  revert database mappings. unfold populated.
  induction managers as [|[n m] ms IH]; intros db mp Hnd.
  - simpl. by rewrite app_nil_r.
  - rewrite fmap_cons in Hnd. rewrite filter_cons. simpl in *.
    destruct (is_populated m) eqn:Hm.
    + rewrite decide_True by done. rewrite fmap_cons. simpl.
      rewrite dict_set_fresh.
      * rewrite IH; [by rewrite <- app_assoc|].
        unfold keys. by rewrite fmap_app, <- app_assoc.
      * apply NoDup_app in Hnd as (_ & Hnd & _). intros Hin.
        apply (Hnd _ Hin). by left.
    + rewrite decide_False by done. apply IH.
      rewrite <- Permutation_middle in Hnd. by apply NoDup_cons in Hnd as [_ ?].
Qed.

Lemma load_mappings_other managers (database : dict string gene_sets) mappings name :
  name ∉ managers.*1 ->
  (load managers database mappings).2 !! name = mappings !! name.
Proof.
  revert database mappings.
  induction managers as [|[n m] ms IH]; intros db mp Hname; [done|].
  rewrite fmap_cons in Hname. apply not_elem_of_cons in Hname as [Hne Hname].
  simpl in *. destruct (is_populated m); rewrite IH by done; [|done].
  by rewrite lookup_insert_ne.
Qed.

Lemma load_mappings_lookup managers (database : dict string gene_sets) mappings name m :
  NoDup managers.*1 -> (name, m) ∈ managers -> is_populated m = true ->
  (load managers database mappings).2 !! name = Some (get_pathway_id_name_mapping m).
Proof.
  revert database mappings.
  induction managers as [|[n0 m0] ms IH]; intros db mp Hnd Hin Hm.
  - by apply elem_of_nil in Hin.
  - rewrite fmap_cons in Hnd. apply NoDup_cons in Hnd as [Hn0 Hnd]. simpl in *.
    apply elem_of_cons in Hin as [[= <- <-]|Hin].
    + rewrite Hm, load_mappings_other by done. by rewrite lookup_insert_eq.
    + destruct (is_populated m0); by apply IH.
Qed.

Lemma load_mappings_populated managers (database : dict string gene_sets) mappings name :
  is_Some ((load managers database mappings).2 !! name) <->
  is_Some (mappings !! name) ∨ exists m, (name, m) ∈ managers ∧ is_populated m = true.
Proof.
  revert database mappings.
  induction managers as [|[n m] ms IH]; intros db mp; simpl.
  - split; [by left|]. intros [?|(m & Hin & _)]; [done|]. by apply elem_of_nil in Hin.
  - destruct (is_populated m) eqn:Hm; rewrite IH.
    + rewrite lookup_insert. split.
      * intros [Hsome|(m' & Hin & Hp)].
        -- destruct (decide (n = name)) as [->|Hne]; [|by left].
           right. exists m. split; [by left|done].
        -- right. exists m'. split; [by right|done].
      * intros [Hsome|(m' & [[= -> ->]|Hin]%elem_of_cons & Hp)].
        -- left. destruct (decide (n = name)); [by eexists|done].
        -- left. rewrite decide_True by done. by eexists.
        -- right. by exists m'.
    + split.
      * intros [?|(m' & Hin & Hp)]; [by left|right; exists m'].
        split; [by right|done].
      * intros [?|(m' & [[= -> ->]|Hin]%elem_of_cons & Hp)]; [by auto|congruence|].
        right. by exists m'.
Qed.

(** X5: a manager that is not populated has no effect: the run on all
    managers is the run on the populated ones. *)
Theorem unpopulated_sources_ignored (ratio : string -> string -> Qc)
    (directory : string) (mg ms : Qc) (managers : list (string * Manager)) :
  make_similarity_matricies ratio directory mg ms managers
  = make_similarity_matricies ratio directory mg ms (populated managers).
Proof.
  unfold make_similarity_matricies. by rewrite (load_populated_only managers).
Qed.

(** X6: when the managers have different names, the database holds, in the
    order of the managers, the gene sets of each populated manager under its
    name, and the mappings hold its pathway names under the same name. *)
Theorem load_distinct_names (managers : list (string * Manager)) :
  NoDup managers.*1 ->
  database_of managers
  = ((λ nm, (nm.1, get_pathway_id_to_symbols nm.2)) <$> populated managers) ∧
  forall name m, (name, m) ∈ managers -> is_populated m = true ->
    mappings_of managers !! name = Some (get_pathway_id_name_mapping m).
Proof.
  intros Hnd. split.
  - unfold database_of. by rewrite load_fresh.
  - intros name m Hin Hm. by apply load_mappings_lookup.
Qed.

Lemma load_distinct_names_witness :
  database_of example_managers
  = ((λ nm, (nm.1, get_pathway_id_to_symbols nm.2)) <$> populated example_managers) ∧
  forall name m, (name, m) ∈ example_managers -> is_populated m = true ->
    mappings_of example_managers !! name = Some (get_pathway_id_name_mapping m).
Proof.
  apply (load_distinct_names example_managers).
  vm_compute. repeat constructor; by (intros H; split_elem H).
Defined.

(** X7: the database and the mappings have the same keys: a name has gene
    sets in the database exactly when it has pathway names in the mappings,
    so the lookups [mappings[a_name]] and [mappings[b_name]] never fail. *)
Theorem database_mappings_same_keys (managers : list (string * Manager)) (name : string) :
  name ∈ keys (database_of managers) <-> is_Some (mappings_of managers !! name).
Proof.
  rewrite database_of_populated. unfold mappings_of.
  rewrite load_mappings_populated, lookup_empty. split; [by right|].
  intros [[? ?]|?]; done.
Qed.

(** * Counting and writing the reports *)

Lemma combinations_length {A} (l : list A) :
  2 * length (combinations l) = length l * (length l - 1).
Proof.
  induction l as [|x l IH]; simpl; [done|].
  rewrite length_app, length_fmap. destruct l; simpl in *; lia.
Qed.

(** X8: with [n] populated managers of different names, a run that returns
    holds [n (n - 1) / 2] reports. *)
Theorem report_count (ratio : string -> string -> Qc)
    (directory : string) (mg ms : Qc) (managers : list (string * Manager))
    (evs : list event) (rv : dict (string * string) DataFrame) :
  NoDup managers.*1 ->
  make_similarity_matricies ratio directory mg ms managers = (evs, Ok rv) ->
  2 * length rv = length (populated managers) * (length (populated managers) - 1).
Proof.
  intros Hnd Hrun. apply run_keys in Hrun.
  apply (f_equal length) in Hrun. unfold keys in Hrun at 1.
  rewrite length_fmap in Hrun. rewrite Hrun, combinations_length.
  unfold keys, database_of. rewrite length_fmap, load_fresh by done.
  by rewrite app_nil_l, length_fmap.
Qed.

Lemma report_count_witness :
  2 * length (returned (make_similarity_matricies example_ratio "out" (Q2Qc (1 # 2))
                          (Q2Qc 0) three_managers).2)
  = length (populated three_managers) * (length (populated three_managers) - 1).
Proof.
  apply (report_count example_ratio "out" (Q2Qc (1 # 2)) (Q2Qc 0) three_managers
           (make_similarity_matricies example_ratio "out" (Q2Qc (1 # 2)) (Q2Qc 0)
              three_managers).1).
  - vm_compute. repeat constructor; by (intros H; split_elem H).
  - vm_compute. reflexivity.
Defined.

(** X9: in a run that returns, the reports written are the reports
    returned: after the creation of the directory there is one [to_csv]
    event for each entry of the returned mapping, in the same order, with
    the data frame of that entry and the path made of its two names. *)
Theorem written_reports_are_returned (ratio : string -> string -> Qc)
    (directory : string) (mg ms : Qc) (managers : list (string * Manager))
    (evs : list event) (rv : dict (string * string) DataFrame) :
  make_similarity_matricies ratio directory mg ms managers = (evs, Ok rv) ->
  evs = MakeDirs directory
          :: ((λ kv, ToCsv (report_path directory kv.1.1 kv.1.2) kv.2) <$> rv).
Proof.
  intros (dfs & Hdfs & -> & ->)%run_Ok. f_equal.
  induction Hdfs as [|p df pairs dfs _ _ IH]; [done|].
  rewrite fmap_cons. simpl. by rewrite IH.
Qed.

Lemma written_reports_are_returned_witness :
  (example_run (Q2Qc (1 # 10))).1
  = MakeDirs "out"
      :: ((λ kv, ToCsv (report_path "out" kv.1.1 kv.1.2) kv.2)
            <$> returned (example_run (Q2Qc (1 # 10))).2).
Proof.
  apply (written_reports_are_returned example_ratio "out" (Q2Qc (1 # 10)) (Q2Qc 0)
           example_managers).
  vm_compute. reflexivity.
Defined.

(** * More on the rows of a report *)

Lemma product_cons {A B} (x : A) (a : list A) (b : list B) :
  product (x :: a) b = (pair x <$> b) ++ product a b.
Proof. done. Qed.

Lemma product_length {A B} (a : list A) (b : list B) :
  length (product a b) = length a * length b.
Proof.
  induction a as [|x a IH]; [done|].
  rewrite product_cons, length_app, length_fmap, IH. simpl. lia.
Qed.

Lemma product_NoDup {A B} (a : list A) (b : list B) :
  NoDup a -> NoDup b -> NoDup (product a b).
Proof.
  intros Ha Hb. induction Ha as [|x a Hx Ha IH]; [constructor|].
  rewrite product_cons. apply NoDup_app. split; [|split; [|done]].
  - apply NoDup_fmap_2; [|done]. by intros y y' [= ->].
  - intros [x' y] (y' & [= -> ->] & _)%list_elem_of_fmap [Hin _]%elem_of_product.
    done.
Qed.

Lemma product_fmap {A B A' B'} (f : A -> A') (g : B -> B') (a : list A) (b : list B) :
  prod_map f g <$> product a b = product (f <$> a) (g <$> b).
Proof.
  induction a as [|x a IH]; [done|].
  rewrite fmap_cons, !product_cons, fmap_app, IH. f_equal.
  rewrite <- !list_fmap_compose. by apply list_fmap_ext.
Qed.

Section rows_facts.
Context (ratio : string -> string -> Qc) (mg ms : Qc).
Context (a_name b_name : string) (a_mappings b_mappings : name_mapping).

Local Abbreviation row_of := (pathway_pair_row ratio mg ms a_name b_name a_mappings b_mappings).
Local Abbreviation loop := (rows_loop ratio mg ms a_name b_name a_mappings b_mappings).

Lemma rows_loop_Forall2 it rs :
  loop it [] = Ok rs <->
  exists ros, Forall2 (λ x r, row_of x = Ok r) it ros ∧ rs = omap id ros.
Proof.
  revert rs. induction it as [|x it IH]; intros rs.
  - split.
    + intros [= <-]. exists []. by split; [constructor|].
    + intros (ros & Hros & ->). by apply Forall2_nil_inv_l in Hros as ->.
  - rewrite rows_loop_cons. split.
    + intros (r & Hr & (rs' & Hrs' & [= <-])%bind_Ok)%bind_Ok.
      apply IH in Hrs' as (ros & Hros & ->).
      exists (r :: ros). split; [by constructor|]. by destruct r.
    + intros (ros & Hros & ->).
      apply Forall2_cons_inv_l in Hros as (r & ros' & Hr & Hros' & ->).
      rewrite Hr. simpl.
      assert (loop it [] = Ok (omap id ros')) as -> by (apply IH; eauto).
      simpl. by destruct r.
Qed.

Lemma rows_ids it ros :
  Forall2 (λ x r, row_of x = Ok r) it ros ->
  ((λ r, (row_a_id r, row_b_id r)) <$> omap id ros)
    `sublist_of` (prod_map fst fst <$> it).
Proof.
  induction 1 as [|[[pa sa] [pb sb]] r it ros Hr _ IH]; [done|].
  rewrite fmap_cons.
  apply pathway_pair_row_Ok in Hr
    as (g & _ & [[_ ->]|(_ & _ & na & nb & _ & _ & ->)]); simpl.
  - by apply sublist_cons.
  - by apply sublist_skip.
Qed.

Lemma rows_all_pass it ros :
  Forall2 (λ x r, row_of x = Ok r) it ros ->
  (mg ≤ 0)%Qc -> (ms ≤ ratio a_name b_name)%Qc ->
  length (omap id ros) = length it.
Proof.
  intros Hros Hmg Hms.
  induction Hros as [|[[pa sa] [pb sb]] r it ros Hr _ IH]; [done|].
  apply pathway_pair_row_Ok in Hr
    as (g & Hg & [[[Hlt|Hlt] _]|(_ & _ & na & nb & _ & _ & ->)]); simpl.
  - apply calculate_jaccard_nonneg in Hg.
    destruct (Qclt_not_le _ _ Hlt). by etrans.
  - by destruct (Qclt_not_le _ _ Hlt).
  - f_equal. apply IH.
Qed.

Lemma rows_none_pass it ros :
  Forall2 (λ x r, row_of x = Ok r) it ros ->
  (ratio a_name b_name < ms)%Qc ∨ (1 < mg)%Qc ->
  omap id ros = [].
Proof.
  intros Hros Hcut.
  induction Hros as [|[[pa sa] [pb sb]] r it ros Hr _ IH]; [done|].
  apply pathway_pair_row_Ok in Hr
    as (g & Hg & [[_ ->]|(Hmg & Hms & _)]); simpl; [done|].
  destruct Hcut as [Hlt|Hlt].
  - by destruct (Qclt_not_le _ _ Hlt).
  - apply calculate_jaccard_le_one in Hg.
    destruct (Qclt_not_le _ _ Hlt). by etrans.
Qed.

End rows_facts.

Lemma run_report ratio directory mg ms managers evs rv a b df a_sets b_sets :
  make_similarity_matricies ratio directory mg ms managers = (evs, Ok rv) ->
  dict_get rv (a, b) = Some df ->
  dict_get (database_of managers) a = Some a_sets ->
  dict_get (database_of managers) b = Some b_sets ->
  exists am bm ros,
    mappings_of managers !! a = Some am ∧ mappings_of managers !! b = Some bm ∧
    Forall2 (λ x r, pathway_pair_row ratio mg ms a b am bm x = Ok r)
      (product a_sets b_sets) ros ∧
    df = {| columns := report_columns a b; rows := sort_values_desc (omap id ros) |}.
Proof.
  intros Hrun Hdf Ha Hb.
  pose proof (run_entry_sets _ _ _ _ _ _ _ _ _ _ _ _ Hrun Hdf Ha Hb) as Hframe.
  apply similarity_frame_Ok in Hframe as (am & bm & rs & Ham & Hbm & Hrs & ->).
  apply rows_loop_Forall2 in Hrs as (ros & Hros & ->).
  by exists am, bm, ros.
Qed.

(** X11: a report has at most one row for each element of the cross product
    of the two gene set dicts. *)
Theorem report_row_count_bound (ratio : string -> string -> Qc)
    (directory : string) (mg ms : Qc) (managers : list (string * Manager))
    (evs : list event) (rv : dict (string * string) DataFrame)
    (a b : string) (df : DataFrame) (a_sets b_sets : gene_sets) :
  make_similarity_matricies ratio directory mg ms managers = (evs, Ok rv) ->
  dict_get rv (a, b) = Some df ->
  dict_get (database_of managers) a = Some a_sets ->
  dict_get (database_of managers) b = Some b_sets ->
  length (rows df) <= length a_sets * length b_sets.
Proof.
  intros Hrun Hdf Ha Hb.
  destruct (run_report _ _ _ _ _ _ _ _ _ _ _ _ Hrun Hdf Ha Hb)
    as (am & bm & ros & _ & _ & Hros & ->).
  simpl. rewrite sort_values_desc_Permutation, <- product_length.
  apply rows_ids, sublist_length in Hros. by rewrite !length_fmap in Hros.
Qed.

Lemma report_row_count_bound_witness :
  length (rows (example_report (Q2Qc (1 # 10))))
  <= length (get_pathway_id_to_symbols source_X)
     * length (get_pathway_id_to_symbols source_Y).
Proof.
  apply (report_row_count_bound example_ratio "out" (Q2Qc (1 # 10)) (Q2Qc 0)
           example_managers (example_run (Q2Qc (1 # 10))).1
           (returned (example_run (Q2Qc (1 # 10))).2) "X" "Y").
  - vm_compute. reflexivity.
  - vm_compute. reflexivity.
  - vm_compute. reflexivity.
  - vm_compute. reflexivity.
Defined.

(** X12: when the two gene set dicts have no repeated pathway identifier, no
    two rows of the report have the same pair of pathway identifiers. *)
Theorem report_pathway_pairs_unique (ratio : string -> string -> Qc)
    (directory : string) (mg ms : Qc) (managers : list (string * Manager))
    (evs : list event) (rv : dict (string * string) DataFrame)
    (a b : string) (df : DataFrame) (a_sets b_sets : gene_sets) :
  make_similarity_matricies ratio directory mg ms managers = (evs, Ok rv) ->
  dict_get rv (a, b) = Some df ->
  dict_get (database_of managers) a = Some a_sets ->
  dict_get (database_of managers) b = Some b_sets ->
  NoDup (keys a_sets) -> NoDup (keys b_sets) ->
  NoDup ((λ r, (row_a_id r, row_b_id r)) <$> rows df).
Proof.
  intros Hrun Hdf Ha Hb Hnda Hndb.
  destruct (run_report _ _ _ _ _ _ _ _ _ _ _ _ Hrun Hdf Ha Hb)
    as (am & bm & ros & _ & _ & Hros & ->).
  simpl. rewrite sort_values_desc_Permutation.
  eapply sublist_NoDup; [|by eapply rows_ids].
  rewrite product_fmap. by apply product_NoDup.
Qed.

Lemma report_pathway_pairs_unique_witness :
  NoDup ((λ r, (row_a_id r, row_b_id r)) <$> rows (example_report (Q2Qc (1 # 10)))).
Proof.
  apply (report_pathway_pairs_unique example_ratio "out" (Q2Qc (1 # 10)) (Q2Qc 0)
           example_managers (example_run (Q2Qc (1 # 10))).1
           (returned (example_run (Q2Qc (1 # 10))).2) "X" "Y" _
           (get_pathway_id_to_symbols source_X) (get_pathway_id_to_symbols source_Y)).
  - vm_compute. reflexivity.
  - vm_compute. reflexivity.
  - vm_compute. reflexivity.
  - vm_compute. reflexivity.
  - vm_compute. repeat constructor; by (intros H; split_elem H).
  - vm_compute. repeat constructor; by (intros H; split_elem H).
Defined.

(** X13: when the string similarity of the two source names is below the
    string threshold, or the gene set threshold is above one, the report of
    the pair is returned and written all the same, with no row. *)
Theorem report_empty_above_scores (ratio : string -> string -> Qc)
    (directory : string) (mg ms : Qc) (managers : list (string * Manager))
    (evs : list event) (rv : dict (string * string) DataFrame)
    (a b : string) (df : DataFrame) :
  make_similarity_matricies ratio directory mg ms managers = (evs, Ok rv) ->
  dict_get rv (a, b) = Some df ->
  (ratio a b < ms)%Qc ∨ (1 < mg)%Qc ->
  rows df = [] ∧ ToCsv (report_path directory a b) df ∈ evs.
Proof.
  intros Hrun Hdf%dict_get_elem Hcut. split.
  - destruct (run_entry _ _ _ _ _ _ _ _ _ Hrun Hdf)
      as ([[a' a_sets] [b' b_sets]] & _ & [= -> ->] & Hframe).
    apply similarity_frame_Ok in Hframe as (am & bm & rs & _ & _ & Hrs & ->).
    apply rows_loop_Forall2 in Hrs as (ros & Hros & ->).
    simpl. by rewrite (rows_none_pass _ _ _ _ _ _ _ _ _ Hros Hcut).
  - apply run_Ok in Hrun as (dfs & Hdfs & -> & ->). right.
    induction Hdfs as [|p df' pairs dfs _ _ IH]; [by apply elem_of_nil in Hdf|].
    rewrite fmap_cons in Hdf. simpl in Hdf.
    apply elem_of_cons in Hdf as [[= -> -> ->]|Hdf]; [by left|].
    right. by apply IH.
Qed.

Lemma report_empty_above_scores_witness :
  rows (example_report (Q2Qc 2)) = [] ∧
  ToCsv (report_path "out" "X" "Y") (example_report (Q2Qc 2)) ∈ (example_run (Q2Qc 2)).1.
Proof.
  apply (report_empty_above_scores example_ratio "out" (Q2Qc 2) (Q2Qc 0)
           example_managers (example_run (Q2Qc 2)).1
           (returned (example_run (Q2Qc 2)).2) "X" "Y").
  - vm_compute. reflexivity.
  - vm_compute. reflexivity.
  - right. vm_compute. reflexivity.
Defined.

(** X14: when the gene set threshold is at most zero and the string
    threshold is at most the string similarity of the two source names,
    nothing is filtered: the report has one row for each element of the
    cross product. *)
Theorem report_complete_below_scores (ratio : string -> string -> Qc)
    (directory : string) (mg ms : Qc) (managers : list (string * Manager))
    (evs : list event) (rv : dict (string * string) DataFrame)
    (a b : string) (df : DataFrame) (a_sets b_sets : gene_sets) :
  make_similarity_matricies ratio directory mg ms managers = (evs, Ok rv) ->
  dict_get rv (a, b) = Some df ->
  dict_get (database_of managers) a = Some a_sets ->
  dict_get (database_of managers) b = Some b_sets ->
  (mg ≤ 0)%Qc -> (ms ≤ ratio a b)%Qc ->
  length (rows df) = length a_sets * length b_sets.
Proof.
  intros Hrun Hdf Ha Hb Hmg Hms.
  destruct (run_report _ _ _ _ _ _ _ _ _ _ _ _ Hrun Hdf Ha Hb)
    as (am & bm & ros & _ & _ & Hros & ->).
  simpl. rewrite sort_values_desc_Permutation, <- product_length.
  by apply (rows_all_pass _ _ _ _ _ _ _ _ _ Hros).
Qed.

Lemma report_complete_below_scores_witness :
  length (rows named_report)
  = length (get_pathway_id_to_symbols source_X)
    * length (get_pathway_id_to_symbols source_V).
Proof.
  apply (report_complete_below_scores example_ratio "out" (Q2Qc 0) (Q2Qc 0)
           named_managers named_run.1 (returned named_run.2) "X" "V").
  - vm_compute. reflexivity.
  - vm_compute. reflexivity.
  - vm_compute. reflexivity.
  - vm_compute. reflexivity.
  - vm_compute. discriminate.
  - vm_compute. discriminate.
Defined.



(** * When the run returns and when it raises *)


Lemma Forall2_elem_l {A B} (P : A -> B -> Prop) (l : list A) (k : list B) (x : A) :
  Forall2 P l k -> x ∈ l -> exists y, P x y.
Proof.
  intros Hlk [i Hi]%list_elem_of_lookup.
  destruct (Forall2_lookup_l _ _ _ _ _ Hlk Hi) as (y & _ & Hy). by exists y.
Qed.


(** X16: an empty gene set in a pair of populated sources of which the
    other source has a pathway makes the run raise, whatever the
    thresholds: no mapping is returned. *)
Theorem empty_gene_set_aborts (ratio : string -> string -> Qc)
    (directory : string) (mg ms : Qc) (managers : list (string * Manager))
    (a b : string) (a_sets b_sets : gene_sets) (pa pb : string) (sa sb : gset string) :
  ((a, a_sets), (b, b_sets)) ∈ combinations (database_of managers) ->
  (pa, sa) ∈ a_sets -> (pb, sb) ∈ b_sets -> sa = ∅ ∨ sb = ∅ ->
  exists e, (make_similarity_matricies ratio directory mg ms managers).2 = Raise e.
Proof.
  intros Hpair Hpa Hpb Hempty.
  destruct (make_similarity_matricies ratio directory mg ms managers)
    as [evs [rv|e]] eqn:Hrun; [|by exists e].
  exfalso. apply run_Ok in Hrun as (dfs & Hdfs & _ & _).
  destruct (Forall2_elem_l _ _ _ _ Hdfs Hpair) as [df Hframe].
  apply similarity_frame_Ok in Hframe as (am & bm & rs & _ & _ & Hrs & _).
  apply rows_loop_Ok in Hrs as [Hall _].
  destruct (Hall ((pa, sa), (pb, sb))) as [r Hr]; [by apply elem_of_product|].
  apply pathway_pair_row_Ok in Hr as (g & Hg & _).
  apply calculate_jaccard_Ok_nonempty in Hg as [H1 H2].
  by destruct Hempty.
Qed.

Lemma empty_gene_set_aborts_witness :
  exists e, (make_similarity_matricies example_ratio "out" (Q2Qc 2) (Q2Qc 2)
               failing_managers).2 = Raise e.
Proof.
  apply (empty_gene_set_aborts example_ratio "out" (Q2Qc 2) (Q2Qc 2) failing_managers
           "X" "W" (get_pathway_id_to_symbols source_X)
           (get_pathway_id_to_symbols source_W) "p1" "w1" {[ "A"; "B"; "C" ]} ∅).
  - vm_compute. apply list_elem_of_further, list_elem_of_here.
  - apply list_elem_of_here.
  - apply list_elem_of_here.
  - by right.
Defined.




(** * Column labels and paths *)

Lemma string_app_length (a s : string) :
  String.length (a ++ s)%string = String.length a + String.length s.
Proof. induction a as [|c a IH]; [done|]. simpl. by rewrite <- IH. Qed.

Lemma string_app_inj_r (s a b : string) : (a ++ s)%string = (b ++ s)%string -> a = b.
Proof.
  intros Heq.
  assert (String.length a = String.length b) as Hlen.
  { apply (f_equal String.length) in Heq. rewrite !string_app_length in Heq. lia. }
  revert b Heq Hlen. induction a as [|c a IH]; intros [|c' b] Heq Hlen; try done.
  injection Heq as -> Heq. f_equal. apply IH; [done|]. simpl in Hlen. lia.
Qed.

Lemma string_last_app (a s : string) :
  s ≠ EmptyString -> string_last (a ++ s)%string = string_last s.
Proof.
  intros Hs. induction a as [|c a IH]; [done|].
  change (String c a ++ s)%string with (String c (a ++ s)%string).
  destruct (a ++ s)%string as [|c' t] eqn:Happ.
  - destruct a; [done|discriminate].
  - exact IH.
Qed.

Lemma string_prefix_nil (x : string) : String.prefix EmptyString x = true.
Proof. by destruct x. Qed.

Lemma string_prefix_app (d x : string) : String.prefix d (d ++ x)%string = true.
Proof.
  induction d as [|c d IH]; [apply string_prefix_nil|].
  change (String c d ++ x)%string with (String c (d ++ x)%string). simpl.
  by destruct (Ascii.ascii_dec c c).
Qed.

Lemma string_prefix_sep_app (a x : string) :
  a ≠ EmptyString -> String.prefix "/" (a ++ x)%string = String.prefix "/" a.
Proof.
  destruct a as [|c a]; [done|]. intros _.
  change (String c a ++ x)%string with (String c (a ++ x)%string). simpl.
  case_match; [|done]. by rewrite !string_prefix_nil.
Qed.

(** Two labels are different when they are different constants, when they
    add the same ending to different names, or when their endings end in
    different characters. *)
Ltac label_neq Hne :=
  let H := fresh "Hlabel" in
  intros H;
  first
    [ discriminate H
    | apply string_app_inj_r in H; first [by destruct (Hne H)|by destruct (Hne (eq_sym H))]
    | apply (f_equal string_last) in H;
      rewrite ?string_last_app in H by done; vm_compute in H; discriminate H ].

Lemma report_columns_NoDup (a b : string) : a ≠ b -> NoDup (report_columns a b).
Proof.
  intros Hne. unfold report_columns.
  repeat (apply NoDup_cons; split;
          [rewrite ?not_elem_of_cons; repeat split;
           first [apply not_elem_of_nil|label_neq Hne]|]).
  apply NoDup_nil_2.
Qed.

(** X10: the columns of the report of the pair [(a, b)] are the four labels
    made of the two source names followed by the two similarity labels, and
    these six labels are pairwise different, so that the two labels of
    [sort_values] each name one column. *)
Theorem report_columns_distinct (ratio : string -> string -> Qc)
    (directory : string) (mg ms : Qc) (managers : list (string * Manager))
    (evs : list event) (rv : dict (string * string) DataFrame)
    (a b : string) (df : DataFrame) :
  make_similarity_matricies ratio directory mg ms managers = (evs, Ok rv) ->
  dict_get rv (a, b) = Some df ->
  columns df = [(a ++ "_id")%string; (a ++ "_name")%string;
                (b ++ "_id")%string; (b ++ "_name")%string;
                "gene_set_similarity"; "string_similarity"] ∧
  NoDup (columns df).
Proof.
  intros Hrun Hdf%dict_get_elem.
  assert (a ≠ b) as Hne.
  { apply (combinations_distinct (keys (database_of managers)));
      [apply database_of_NoDup|].
    rewrite <- (run_keys _ _ _ _ _ _ _ Hrun).
    apply list_elem_of_fmap. by exists ((a, b), df). }
  destruct (run_entry _ _ _ _ _ _ _ _ _ Hrun Hdf)
    as ([[a' a_sets] [b' b_sets]] & _ & [= -> ->] & Hframe).
  apply similarity_frame_Ok in Hframe as (am & bm & rs & _ & _ & _ & ->).
  split; [done|]. by apply report_columns_NoDup.
Qed.

Lemma report_columns_distinct_witness :
  columns (example_report (Q2Qc (1 # 10)))
  = [("X" ++ "_id")%string; ("X" ++ "_name")%string;
     ("Y" ++ "_id")%string; ("Y" ++ "_name")%string;
     "gene_set_similarity"; "string_similarity"] ∧
  NoDup (columns (example_report (Q2Qc (1 # 10)))).
Proof.
  apply (report_columns_distinct example_ratio "out" (Q2Qc (1 # 10)) (Q2Qc 0)
           example_managers (example_run (Q2Qc (1 # 10))).1
           (returned (example_run (Q2Qc (1 # 10))).2)).
  - vm_compute. reflexivity.
  - vm_compute. reflexivity.
Defined.

Lemma report_file_not_absolute (a b : string) :
  String.prefix "/" a = false ->
  String.prefix "/" (a ++ "_" ++ b ++ ".tsv")%string = false.
Proof.
  destruct a as [|c a]; [done|]. intros Ha.
  by rewrite string_prefix_sep_app.
Qed.

Lemma report_path_relative (directory a b : string) :
  String.prefix "/" a = false ->
  exists sep, report_path directory a b
              = (directory ++ sep ++ a ++ "_" ++ b ++ ".tsv")%string.
Proof.
  intros Ha. unfold report_path, path_join.
  rewrite report_file_not_absolute by done.
  destruct (String.eqb directory EmptyString || endswith_sep directory).
  - by exists EmptyString.
  - by exists "/".
Qed.

(** X18: when the first source name does not start with a slash, the report
    of a pair is written under the output directory: the path starts with
    the directory and ends with the file name made of the two names. *)
Theorem report_path_under_directory (directory a b : string) :
  String.prefix "/" a = false ->
  String.prefix directory (report_path directory a b) = true ∧
  exists sep, (sep = EmptyString ∨ sep = "/") ∧
    report_path directory a b = (directory ++ sep ++ a ++ "_" ++ b ++ ".tsv")%string.
Proof.
  intros Ha. unfold report_path, path_join.
  rewrite report_file_not_absolute by done.
  destruct (String.eqb directory EmptyString || endswith_sep directory).
  - split; [apply string_prefix_app|]. exists EmptyString. by split; [left|].
  - split; [apply string_prefix_app|]. exists "/". by split; [right|].
Qed.

Lemma report_path_under_directory_witness :
  String.prefix "out" (report_path "out" "X" "Y") = true ∧
  exists sep, (sep = EmptyString ∨ sep = "/") ∧
    report_path "out" "X" "Y" = ("out" ++ sep ++ "X" ++ "_" ++ "Y" ++ ".tsv")%string.
Proof.
  apply (report_path_under_directory "out" "X" "Y"). reflexivity.
Defined.



Lemma occurs_split (c : Ascii.ascii) (a a' r r' : string) :
  occurs c a = false -> occurs c a' = false ->
  (a ++ String c r)%string = (a' ++ String c r')%string -> a = a' ∧ r = r'.
Proof.
  revert a'. induction a as [|x a IH]; intros [|x' a']; simpl; intros Ha Ha' Heq.
  - by injection Heq as ->.
  - injection Heq as -> _. apply orb_false_elim in Ha' as [Hx _].
    by rewrite Ascii.eqb_refl in Hx.
  - injection Heq as -> _. apply orb_false_elim in Ha as [Hx _].
    by rewrite Ascii.eqb_refl in Hx.
  - injection Heq as -> Heq.
    apply orb_false_elim in Ha as [_ Ha]. apply orb_false_elim in Ha' as [_ Ha'].
    destruct (IH a' Ha Ha' Heq) as [-> ->]. done.
Qed.

Lemma report_path_inj (directory a b a' b' : string) :
  occurs (Ascii.ascii_of_nat 95) a = false ->
  occurs (Ascii.ascii_of_nat 95) a' = false ->
  String.prefix "/" a = false -> String.prefix "/" a' = false ->
  report_path directory a b = report_path directory a' b' -> a = a' ∧ b = b'.
Proof.
  intros Hu Hu' Ha Ha'. unfold report_path, path_join.
  rewrite !report_file_not_absolute by done.
  assert ((a ++ "_" ++ b ++ ".tsv")%string = (a' ++ "_" ++ b' ++ ".tsv")%string
          -> a = a' ∧ b = b') as Hfile.
  { intros Heq.
    destruct (occurs_split (Ascii.ascii_of_nat 95) a a'
                (b ++ ".tsv")%string (b' ++ ".tsv")%string Hu Hu' Heq) as [-> Hb].
    split; [done|]. by apply string_app_inj_r in Hb. }
  destruct (String.eqb directory EmptyString || endswith_sep directory); intros Heq.
  - by apply Hfile, (inj (String.app directory)).
  - by apply Hfile, (inj (String.app "/")), (inj (String.app directory)).
Qed.

Lemma written_paths_pair_events directory (pairs : list source_pair) dfs :
  length pairs = length dfs ->
  written_paths (zip_with (pair_event directory) pairs dfs)
  = (λ k, report_path directory k.1 k.2) <$> (pair_key <$> pairs).
Proof.
  revert dfs. induction pairs as [|p pairs IH]; intros [|df dfs] Hlen; try done.
  rewrite !fmap_cons. simpl. f_equal. apply IH. simpl in Hlen. lia.
Qed.

(** X21: when no populated source has a name that contains an underscore or
    starts with a slash, the [to_csv] calls of a run that returns are given
    pairwise different path strings.  (Two different strings may still name
    one file, through [./] for instance.) *)
Theorem written_paths_distinct (ratio : string -> string -> Qc)
    (directory : string) (mg ms : Qc) (managers : list (string * Manager))
    (evs : list event) (rv : dict (string * string) DataFrame) :
  (forall name m, (name, m) ∈ managers -> is_populated m = true ->
     occurs (Ascii.ascii_of_nat 95) name = false ∧ String.prefix "/" name = false) ->
  make_similarity_matricies ratio directory mg ms managers = (evs, Ok rv) ->
  NoDup (written_paths evs).
Proof.
  intros Hnames (dfs & Hdfs & -> & _)%run_Ok.
  change (NoDup (written_paths (zip_with (pair_event directory)
                                  (combinations (database_of managers)) dfs))).
  rewrite written_paths_pair_events by by eapply Forall2_length.
  apply NoDup_fmap_2_strong; [|apply pair_keys_NoDup].
  rewrite pair_keys_combinations.
  intros [a b] [a' b'] [Ha _]%elem_of_combinations [Ha' _]%elem_of_combinations Heq.
  apply database_of_populated in Ha as (m & Hm & Hp).
  apply database_of_populated in Ha' as (m' & Hm' & Hp').
  destruct (Hnames a m Hm Hp) as [Hu Hs]. destruct (Hnames a' m' Hm' Hp') as [Hu' Hs'].
  simpl in Heq. by destruct (report_path_inj _ _ _ _ _ Hu Hu' Hs Hs' Heq) as [-> ->].
Qed.

Lemma written_paths_distinct_witness :
  NoDup (written_paths
           (make_similarity_matricies example_ratio "out" (Q2Qc (1 # 2)) (Q2Qc 0)
              three_managers).1).
Proof.
  apply (written_paths_distinct example_ratio "out" (Q2Qc (1 # 2)) (Q2Qc 0) three_managers
           (make_similarity_matricies example_ratio "out" (Q2Qc (1 # 2)) (Q2Qc 0)
              three_managers).1
           (returned (make_similarity_matricies example_ratio "out" (Q2Qc (1 # 2))
                        (Q2Qc 0) three_managers).2)).
  - intros name m Hin _. split_elem Hin; injection Hin as -> _; by split.
  - vm_compute. reflexivity.
Defined.

(** * The string threshold *)

Section string_threshold.
Context (ratio : string -> string -> Qc) (directory : string) (mg ms ms' : Qc).
Hypothesis Hms : forall a b, (ms ≤ ratio a b)%Qc ∧ (ms' ≤ ratio a b)%Qc.

Lemma pathway_pair_row_string_threshold a_name b_name am bm x :
  pathway_pair_row ratio mg ms a_name b_name am bm x
  = pathway_pair_row ratio mg ms' a_name b_name am bm x.
Proof.
  destruct x as [[pa sa] [pb sb]]. unfold pathway_pair_row.
  destruct (calculate_jaccard sa sb) as [g|e]; simpl; [|done].
  destruct (Hms a_name b_name) as [H1 H2].
  rewrite (bool_decide_false (ratio a_name b_name < ms)%Qc) by by apply Qcle_not_lt.
  by rewrite (bool_decide_false (ratio a_name b_name < ms')%Qc) by by apply Qcle_not_lt.
Qed.

Lemma rows_loop_string_threshold a_name b_name am bm it rows :
  rows_loop ratio mg ms a_name b_name am bm it rows
  = rows_loop ratio mg ms' a_name b_name am bm it rows.
Proof.
  revert rows. induction it as [|x it IH]; intros rows; [done|]. simpl.
  rewrite pathway_pair_row_string_threshold.
  destruct (pathway_pair_row ratio mg ms' a_name b_name am bm x) as [[row|]|e];
    simpl; by rewrite ?IH.
Qed.

Lemma pairs_loop_string_threshold mappings pairs rv :
  pairs_loop ratio directory mg ms mappings pairs rv
  = pairs_loop ratio directory mg ms' mappings pairs rv.
Proof.
  revert rv. induction pairs as [|[[a a_sets] [b b_sets]] pairs IH]; intros rv; [done|].
  simpl. unfold similarity_frame.
  destruct (getitem mappings a) as [am|e]; simpl; [|done].
  destruct (getitem mappings b) as [bm|e]; simpl; [|done].
  rewrite rows_loop_string_threshold.
  destruct (rows_loop ratio mg ms' a b am bm (product a_sets b_sets) []) as [rs|e];
    simpl; [|done].
  by rewrite IH.
Qed.

End string_threshold.

(** X22: a string threshold that no string similarity falls below filters
    nothing: two such thresholds, like the default zero with a scorer that
    is never negative, give the same run. *)
Theorem string_threshold_no_effect (ratio : string -> string -> Qc)
    (directory : string) (mg ms ms' : Qc) (managers : list (string * Manager)) :
  (forall a b, (ms ≤ ratio a b)%Qc ∧ (ms' ≤ ratio a b)%Qc) ->
  make_similarity_matricies ratio directory mg ms managers
  = make_similarity_matricies ratio directory mg ms' managers.
Proof.
  intros Hms. unfold make_similarity_matricies.
  by rewrite (pairs_loop_string_threshold ratio directory mg ms ms' Hms).
Qed.

Lemma string_threshold_no_effect_witness :
  make_similarity_matricies example_ratio "out" (Q2Qc (1 # 10)) (Q2Qc 0) example_managers
  = make_similarity_matricies example_ratio "out" (Q2Qc (1 # 10)) (Q2Qc (1 # 4))
      example_managers.
Proof.
  apply (string_threshold_no_effect example_ratio "out" (Q2Qc (1 # 10)) (Q2Qc 0)
           (Q2Qc (1 # 4)) example_managers).
  intros a b. unfold example_ratio.
  destruct (String.eqb a b); split; vm_compute; discriminate.
Defined.

(** * The script entry point *)






(** * The score as a float *)

Lemma round_half_even_spec (a b : Z) :
  (0 < b)%Z -> (2 * Z.abs (round_half_even a b * b - a) ≤ b)%Z.
Proof.
  intros Hb. unfold round_half_even.
  pose proof (Z.div_mod a b) as Hdiv. pose proof (Z.mod_pos_bound a b Hb) as Hmod.
  destruct (Z.compare_spec (2 * (a mod b)) b) as [Heq|Hlt|Hgt];
    [destruct (Z.even (a / b))|..]; nia.
Qed.

Lemma round_half_even_exact (q b : Z) : (0 < b)%Z -> round_half_even (b * q) b = q.
Proof.
  intros Hb. unfold round_half_even.
  rewrite (Z.mul_comm b q), Z.div_mul, Z.mod_mul by lia.
  destruct (Z.compare_spec (2 * 0) b); lia.
Qed.

Lemma floor_log2_below_one (a b : Z) :
  (0 < a)%Z -> (a < b)%Z -> (floor_log2 a b ≤ -1)%Z.
Proof.
  intros Ha Hab. unfold floor_log2.
  pose proof (Z.log2_le_mono a b) as Hlog.
  destruct (Z.leb_spec 0 (Z.log2 a - Z.log2 b)) as [He|He].
  - assert (Z.log2 a - Z.log2 b = 0)%Z as -> by lia.
    rewrite Z.pow_0_r. destruct (Z.leb_spec (b * 1) a); lia.
  - destruct (b <=? a * 2 ^ (- (Z.log2 a - Z.log2 b)))%Z; lia.
Qed.

Lemma floor_log2_one (a : Z) : (0 < a)%Z -> floor_log2 a a = 0%Z.
Proof.
  intros Ha. unfold floor_log2. rewrite Z.sub_diag.
  change (0 <=? 0)%Z with true. cbv iota.
  by rewrite Z.pow_0_r, Z.mul_1_r, Z.leb_refl.
Qed.

(** The float nearest to a rational between zero and one is within 2^-54,
    half a unit in the last place of the floats below one, of it. *)
Lemma round_binary64_Q_close (x : Q) :
  (0 ≤ Qnum x)%Z -> (Qnum x ≤ Zpos (Qden x))%Z ->
  (x - (1 # 2 ^ 54) <= round_binary64_Q x)%Q ∧ (round_binary64_Q x <= x + (1 # 2 ^ 54))%Q.
Proof.
  destruct x as [[|a|a] b]; simpl; intros Ha Hab; [|clear Ha|lia].
  { unfold round_binary64_Q, Qle, Qminus, Qplus, Qopp. simpl. lia. }
  unfold round_binary64_Q. simpl.
  destruct (decide (Zpos a = Zpos b)) as [Heq|Hne].
  - injection Heq as ->.
    unfold significand, ulp_exponent, scale2. rewrite floor_log2_one by lia. simpl.
    change (Z.pow_pos 2 52) with (2 ^ 52)%Z.
    rewrite (Z.mul_comm (Zpos b)), (Z.mul_comm (2 ^ 52)%Z), round_half_even_exact by lia.
    unfold Qle, Qminus, Qplus, Qopp. simpl. lia.
  - pose proof (floor_log2_below_one (Zpos a) (Zpos b)) as He.
    unfold significand, scale2, ulp_exponent.
    set (p := Z.max (floor_log2 (Zpos a) (Zpos b) - 52) (-1074)).
    assert (p ≤ -53)%Z as Hp by lia.
    destruct (Z.leb_spec 0 p) as [|_]; [lia|].
    pose proof (round_half_even_spec (Zpos a * 2 ^ (- p)) (Zpos b)) as Hr.
    set (r := round_half_even (Zpos a * 2 ^ (- p)) (Zpos b)) in *.
    assert (2 ^ 53 ≤ 2 ^ (- p))%Z as HK by (apply Z.pow_le_mono_r; lia).
    set (K := (2 ^ (- p))%Z) in *.
    unfold Qle, Qminus, Qplus, Qopp. simpl.
    rewrite !Pos2Z.inj_mul, !Z2Pos.id by lia.
    change (Zpos (2 ^ 54)) with (2 * 2 ^ 53)%Z.
    set (E := (2 ^ 53)%Z) in *.
    assert (0 < E)%Z by (subst E; lia).
    split; nia.
Qed.

Lemma round_binary64_close (q : Qc) :
  (0 ≤ q)%Qc -> (q ≤ 1)%Qc ->
  (q - Q2Qc (1 # 2 ^ 54) ≤ round_binary64 q)%Qc ∧
  (round_binary64 q ≤ q + Q2Qc (1 # 2 ^ 54))%Qc.
Proof.
  intros H0 H1.
  destruct (round_binary64_Q_close (this q)) as [Hlow Hhigh].
  - unfold Qcle, Qle in H0. simpl in H0. lia.
  - unfold Qcle, Qle in H1. simpl in H1. lia.
  - unfold Qcle, Qcminus, Qcplus, Qcopp, round_binary64, Q2Qc. simpl.
    rewrite !Qred_correct. by split.
Qed.

Lemma quotient_between_zero_and_one (n m : nat) :
  m ≠ 0 -> n <= m ->
  (0 ≤ Qc_of_Z (Z.of_nat n) / Qc_of_Z (Z.of_nat m))%Qc ∧
  (Qc_of_Z (Z.of_nat n) / Qc_of_Z (Z.of_nat m) ≤ 1)%Qc.
Proof.
  intros Hm Hnm. pose proof (truediv_nonzero n m Hm) as Hq. split.
  - rewrite <- Z2Qc_inj_0. apply (truediv_le_l _ _ _ _ Hq). lia.
  - rewrite <- Z2Qc_inj_1. apply (truediv_le_r _ _ _ _ Hq). lia.
Qed.

(** The rounded float of a quotient of at most one: no overflow. *)
Lemma float_truediv_le (n m : nat) :
  m ≠ 0 -> n <= m ->
  float_truediv n m
  = Ok (round_binary64 (Qc_of_Z (Z.of_nat n) / Qc_of_Z (Z.of_nat m))%Qc).
Proof.
  intros Hm Hnm. unfold float_truediv.
  destruct (Nat.eqb_spec m 0) as [|_]; [done|].
  destruct (quotient_between_zero_and_one n m Hm Hnm) as [H0 H1].
  destruct (round_binary64_close _ H0 H1) as [_ Hhigh].
  rewrite bool_decide_false; [done|].
  apply Qclt_not_le. eapply Qcle_lt_trans; [exact Hhigh|].
  eapply Qcle_lt_trans; [by apply Qcplus_le_mono_r|]. by vm_compute.
Qed.

(** C1 as stated fails: three symbols against four with one in common give
    a score that is not the exact quotient one third. *)
Lemma calculate_jaccard_binary64_inexact :
  calculate_jaccard_binary64 {[ "A"; "B"; "C" ]} {[ "A"; "D"; "E"; "F" ]}
  ≠ Ok (Qc_of_Z (Z.of_nat (size (({[ "A"; "B"; "C" ]} : gset string)
                                   ∩ {[ "A"; "D"; "E"; "F" ]})))
        / Qc_of_Z (Z.of_nat (Nat.min (size ({[ "A"; "B"; "C" ]} : gset string))
                                     (size ({[ "A"; "D"; "E"; "F" ]} : gset string)))))%Qc.
Proof.
  intros Heq.
  apply (f_equal (λ r, match r with Ok q => this q | Raise _ => 0%Q end)) in Heq.
  vm_compute in Heq. discriminate Heq.
Qed.

(** C1, amended: on two non-empty sets, the score that the code returns is
    the binary64 float nearest to the size of the intersection divided by
    the smaller of the two sizes, ties going to the even significand; it is
    within 2^-54 of that quotient. *)
Theorem calculate_jaccard_binary64_nearest (set_1 set_2 : gset string) :
  set_1 ≠ ∅ -> set_2 ≠ ∅ ->
  exists f : Qc,
    calculate_jaccard_binary64 set_1 set_2 = Ok f ∧
    f = round_binary64
          (Qc_of_Z (Z.of_nat (size (set_1 ∩ set_2)))
           / Qc_of_Z (Z.of_nat (Nat.min (size set_1) (size set_2))))%Qc ∧
    (Qc_of_Z (Z.of_nat (size (set_1 ∩ set_2)))
     / Qc_of_Z (Z.of_nat (Nat.min (size set_1) (size set_2)))
     - Q2Qc (1 # 2 ^ 54) ≤ f)%Qc ∧
    (f ≤ Qc_of_Z (Z.of_nat (size (set_1 ∩ set_2)))
         / Qc_of_Z (Z.of_nat (Nat.min (size set_1) (size set_2)))
         + Q2Qc (1 # 2 ^ 54))%Qc.
Proof.
  intros H1 H2.
  pose proof (min_size_nonzero _ _ H1 H2) as Hmin.
  pose proof (size_intersection_le set_1 set_2) as Hle.
  eexists. split; [|split; [reflexivity|]].
  - unfold calculate_jaccard_binary64. by apply float_truediv_le.
  - destruct (quotient_between_zero_and_one _ _ Hmin Hle) as [H0 Hone].
    by apply round_binary64_close.
Qed.

Lemma calculate_jaccard_binary64_nearest_witness :
  exists f : Qc,
    calculate_jaccard_binary64 {[ "A"; "B"; "C" ]} {[ "A"; "D"; "E"; "F" ]} = Ok f ∧
    f = round_binary64
          (Qc_of_Z (Z.of_nat (size (({[ "A"; "B"; "C" ]} : gset string)
                                     ∩ {[ "A"; "D"; "E"; "F" ]})))
           / Qc_of_Z (Z.of_nat (Nat.min (size ({[ "A"; "B"; "C" ]} : gset string))
                                        (size ({[ "A"; "D"; "E"; "F" ]} : gset string)))))%Qc ∧
    (Qc_of_Z (Z.of_nat (size (({[ "A"; "B"; "C" ]} : gset string)
                                ∩ {[ "A"; "D"; "E"; "F" ]})))
     / Qc_of_Z (Z.of_nat (Nat.min (size ({[ "A"; "B"; "C" ]} : gset string))
                                  (size ({[ "A"; "D"; "E"; "F" ]} : gset string))))
     - Q2Qc (1 # 2 ^ 54) ≤ f)%Qc ∧
    (f ≤ Qc_of_Z (Z.of_nat (size (({[ "A"; "B"; "C" ]} : gset string)
                                    ∩ {[ "A"; "D"; "E"; "F" ]})))
         / Qc_of_Z (Z.of_nat (Nat.min (size ({[ "A"; "B"; "C" ]} : gset string))
                                      (size ({[ "A"; "D"; "E"; "F" ]} : gset string))))
         + Q2Qc (1 # 2 ^ 54))%Qc.
Proof.
  apply (calculate_jaccard_binary64_nearest {[ "A"; "B"; "C" ]} {[ "A"; "D"; "E"; "F" ]}).
  - vm_compute. discriminate.
  - vm_compute. discriminate.
Defined.

(** The float of one third, as Python prints it: 0.3333333333333333. *)
Example calculate_jaccard_binary64_third :
  calculate_jaccard_binary64 {[ "A"; "B"; "C" ]} {[ "A"; "D"; "E"; "F" ]}
  = Ok (Q2Qc (6004799503160661 # 2 ^ 54)).
Proof. vm_compute. reflexivity. Qed.

(** The float is the rounded exact quotient, and the two scorers raise on
    the same sets. *)
Lemma calculate_jaccard_binary64_round (s1 s2 : gset string) :
  calculate_jaccard_binary64 s1 s2
  = calculate_jaccard s1 s2 ≫= λ q, Ok (round_binary64 q).
Proof.
  unfold calculate_jaccard_binary64, calculate_jaccard. cbn zeta.
  destruct (decide (Nat.min (size s1) (size s2) = 0)) as [->|Hmin]; [done|].
  rewrite float_truediv_le, truediv_nonzero; [done..|].
  apply size_intersection_le.
Qed.

(** * The run on an operating system *)

Section operating_system.
Context (ratio : string -> string -> Qc) (directory : string) (mg ms : Qc) (os : OS).

Lemma pairs_loop_os_Ok mappings pairs rv history evs rv' :
  pairs_loop_os ratio directory mg ms os mappings pairs rv history = (evs, Ok rv') ->
  pairs_loop ratio directory mg ms mappings pairs rv = (evs, Ok rv').
Proof.
  revert rv history evs.
  induction pairs as [|[[a a_sets] [b b_sets]] pairs IH]; intros rv history evs; [done|].
  simpl. destruct (similarity_frame ratio mg ms mappings a a_sets b b_sets) as [df|e];
    [|done].
  destruct (to_csv_error os history (report_path directory a b) df); [done|].
  destruct (pairs_loop_os ratio directory mg ms os mappings pairs
              (dict_set rv (a, b) df) (history ++ [ToCsv (report_path directory a b) df]))
    as [evs' r] eqn:Hrest.
  simpl. intros [= <- ->]. by rewrite (IH _ _ _ Hrest).
Qed.


Lemma os_makedirs_Ok :
  os_makedirs os directory = Ok tt <->
  directory ≠ EmptyString ∧ makedirs_error os directory = None.
Proof.
  unfold os_makedirs.
  destruct (String.eqb_spec directory EmptyString) as [->|Hne].
  - split; [done|]. by intros [? _].
  - destruct (makedirs_error os directory); split; try done. by intros [_ ?].
Qed.


End operating_system.

(** The empty path cannot be created: the run raises at once, whatever the
    operating system and the managers. *)
Lemma makedirs_empty_path (ratio : string -> string -> Qc) (mg ms : Qc) (os : OS)
    (managers : list (string * Manager)) :
  make_similarity_matricies_os ratio EmptyString mg ms os managers
  = ([], Raise (OSError "FileNotFoundError")).
Proof. done. Qed.

(** C8: with no populated source, or with one only, and an output directory
    that the operating system lets the run create, the run returns the empty
    mapping and writes no report: its only effect is the creation of the
    directory. *)
Theorem no_pair_no_report_os (ratio : string -> string -> Qc)
    (directory : string) (mg ms : Qc) (os : OS) (managers : list (string * Manager)) :
  length (populated managers) <= 1 ->
  directory ≠ EmptyString -> makedirs_error os directory = None ->
  make_similarity_matricies_os ratio directory mg ms os managers
  = ([MakeDirs directory], Ok []).
Proof.
  intros Hlen Hdir Hmk. unfold make_similarity_matricies_os.
  rewrite (proj2 (os_makedirs_Ok directory os)) by done. cbn zeta.
  rewrite combinations_short; [done|].
  pose proof (load_length managers [] ∅) as Hload. simpl in Hload. lia.
Qed.

Lemma no_pair_no_report_os_witness :
  make_similarity_matricies_os example_ratio "out" (Q2Qc (4 # 5)) (Q2Qc 0) willing_os
    [("Z", source_Z); ("X", source_X)]
  = ([MakeDirs "out"], Ok []).
Proof.
  apply (no_pair_no_report_os example_ratio "out" (Q2Qc (4 # 5)) (Q2Qc 0) willing_os
           [("Z", source_Z); ("X", source_X)]).
  - vm_compute. lia.
  - discriminate.
  - reflexivity.
Defined.



(** X24: a run that returns on an operating system met no refusal: the
    directory is not the empty path, and the events and the mapping are
    those of the run on an operating system that accepts every call. *)
Theorem returning_run_met_no_refusal (ratio : string -> string -> Qc)
    (directory : string) (mg ms : Qc) (os : OS) (managers : list (string * Manager))
    (evs : list event) (rv : dict (string * string) DataFrame) :
  make_similarity_matricies_os ratio directory mg ms os managers = (evs, Ok rv) ->
  directory ≠ EmptyString ∧ makedirs_error os directory = None ∧
  make_similarity_matricies ratio directory mg ms managers = (evs, Ok rv).
Proof.
  unfold make_similarity_matricies_os, make_similarity_matricies.
  destruct (os_makedirs os directory) as [[]|e] eqn:Hmk; [|done].
  apply os_makedirs_Ok in Hmk as [Hdir Hmk]. cbn zeta.
  destruct (pairs_loop_os ratio directory mg ms os (load managers [] ∅).2
              (combinations (load managers [] ∅).1) [] [MakeDirs directory])
    as [evs' r] eqn:Hloop.
  simpl. intros [= <- ->]. split; [done|]. split; [done|].
  by rewrite (pairs_loop_os_Ok _ _ _ _ _ _ _ _ _ _ _ Hloop).
Qed.

Lemma returning_run_met_no_refusal_witness :
  "out" ≠ EmptyString ∧ makedirs_error willing_os "out" = None ∧
  make_similarity_matricies example_ratio "out" (Q2Qc (1 # 10)) (Q2Qc 0) example_managers
  = ((example_run (Q2Qc (1 # 10))).1, Ok (returned (example_run (Q2Qc (1 # 10))).2)).
Proof.
  apply (returning_run_met_no_refusal example_ratio "out" (Q2Qc (1 # 10)) (Q2Qc 0)
           willing_os example_managers).
  vm_compute. reflexivity.
Defined.
